(** * mousestyles: advanced path features

    A shallow embedding of
    [mousestyles/path_diversity/path_features_advanced.py]
    (function [compute_advanced]) and the properties of its five outputs:
    radius, center angles, covered area, rectangle area and absolute
    distance.

    Numbers.  The Python code computes on IEEE binary64 values.  The
    development reads every float as the real number it denotes and every
    numpy operation as the exact operation on [R]; rounding, overflow,
    infinities and NaN are outside the model.

    Tables.  A pandas DataFrame is read as its list of column names, in
    column order, together with its rows in index order, each row reduced to
    its [x] and [y] cells.  Column names and index labels are taken to be
    distinct.  The cells of the other columns are not represented: the
    function reaches them only through the label slice ['x':'y'], and then
    only the number of selected columns matters.

    Helper.  [angle_between] is imported from [path_features.py], which is
    not part of this file's source; [compute_advanced] takes it as a
    parameter, and [path_features.angle_between] below is the formula the
    specification gives for it.  Where binary64 yields NaN for the quotient
    of that formula on a zero vector, the real-number reading has some real
    number; no statement depends on which. *)

From Stdlib Require Import Reals Lra Lia List String Bool Arith.
From Stdlib Require Import Permutation.
Import ListNotations.
Open Scope R_scope.

(** ** Exceptions and the error monad *)

Inductive exn : Type :=
| TypeError (msg : string)
| ValueError (msg : string)
| IndexError (msg : string).

Inductive result (A : Type) : Type :=
| Ok (a : A)
| Raise (e : exn).

Arguments Ok {A} a.
Arguments Raise {A} e.

Definition bind {A B : Type} (c : result A) (k : A -> result B) : result B :=
  match c with
  | Ok a => k a
  | Raise e => Raise e
  end.

Notation "x <- c ;; k" := (bind c (fun x => k))
  (at level 61, c at next level, right associativity).

(** A list comprehension whose body may raise: elements are evaluated from
    left to right and the first exception leaves the comprehension. *)
Fixpoint mapM {A B : Type} (f : A -> result B) (l : list A) : result (list B) :=
  match l with
  | [] => Ok []
  | a :: t => b <- f a ;; bs <- mapM f t ;; Ok (b :: bs)
  end.

(** ** Data *)

Definition vec : Type := (R * R)%type.

Record DataFrame : Type := mkDataFrame {
  keys : list string;
  rows : list vec
}.

(** What a caller may hand to [compute_advanced]: a DataFrame, or some other
    Python value such as a plain list of coordinate tuples. *)
Inductive pyobj : Type :=
| PyDataFrame (df : DataFrame)
| PyList (pts : list vec).

Definition len (df : DataFrame) : nat := List.length (rows df).
Definition col_x (df : DataFrame) : list R := map fst (rows df).
Definition col_y (df : DataFrame) : list R := map snd (rows df).

(** [set(ks).issuperset(wanted)] *)
Definition issuperset (ks wanted : list string) : bool :=
  forallb (fun w => existsb (String.eqb w) ks) wanted.

Record EdgePoints : Type := mkEdgePoints {
  xmin : R; xmax : R; ymin : R; ymax : R
}.

Record FeatureBundle : Type := mkFeatureBundle {
  radius : list R;
  center_angles : list R;
  area_cov : R;
  area_rec : R;
  abs_distance : R
}.

(** ** Python and numpy primitives *)

(** [zip] stops at the shorter argument, as [combine] does. *)
Definition zip {A B : Type} (l : list A) (l' : list B) : list (A * B) :=
  combine l l'.

Definition zip3 {A B C : Type} (l1 : list A) (l2 : list B) (l3 : list C)
  : list (A * B * C) :=
  combine (combine l1 l2) l3.

(** The builtin [sum]: starts at 0 and adds from the left. *)
Definition sum (l : list R) : R := fold_left Rplus l 0.

(** [l[0]] and [l[-1]] *)
Definition first {A : Type} (l : list A) : result A :=
  match l with
  | [] => Raise (IndexError "index 0 is out of bounds for axis 0 with size 0")
  | a :: _ => Ok a
  end.

Definition final {A : Type} (l : list A) : result A :=
  match l with
  | [] => Raise (IndexError "index -1 is out of bounds for axis 0 with size 0")
  | a :: t => Ok (last t a)
  end.

Module np.

Definition min (l : list R) : result R :=
  match l with
  | [] => Raise (ValueError "zero-size array to reduction operation minimum which has no identity")
  | a :: t => Ok (fold_left Rmin t a)
  end.

Definition max (l : list R) : result R :=
  match l with
  | [] => Raise (ValueError "zero-size array to reduction operation maximum which has no identity")
  | a :: t => Ok (fold_left Rmax t a)
  end.

Definition dot (v1 v2 : vec) : R := fst v1 * fst v2 + snd v1 * snd v2.

Definition clip (a lo hi : R) : R := Rmin (Rmax a lo) hi.

Module linalg.
Definition norm (v : vec) : R := sqrt (fst v ^ 2 + snd v ^ 2).
End linalg.

End np.

(** Element-wise difference of two points. *)
Definition vsub (p c : vec) : vec := (fst p - fst c, snd p - snd c).

(** ** Label slices *)

(** Position of the first column named [k]. *)
Fixpoint index_of (k : string) (ks : list string) : nat :=
  match ks with
  | [] => O
  | a :: t => if String.eqb a k then O else S (index_of k t)
  end.

(** The columns selected by the label slice ['x':'y']: those from column x
    to column y, both included, and none when y stands before x. *)
Definition slice_xy (ks : list string) : list string :=
  let ix := index_of "x" ks in
  let iy := index_of "y" ks in
  firstn (S iy - ix) (skipn ix ks).

(** The exception numpy raises when a row of another width than 2 meets the
    two-element list; its message, which also names the two shapes, is
    abridged. *)
Definition slice_error : exn :=
  ValueError "operands could not be broadcast together".

(** [path_obj.loc[i, 'x':'y'] - [center['x'], center['y']]] for the row whose
    x and y cells are [p]. *)
Definition row_minus (ks : list string) (p c : vec) : result vec :=
  if (List.length (slice_xy ks) =? 2)%nat then Ok (vsub p c)
  else Raise slice_error.

Module path_features.

(** Modelled from the spec: [angle_between] is defined in
    [mousestyles/path_diversity/path_features.py], which is not among the
    sources at hand.  It is the formula of section 4.1, step 5 of the
    specification, the arccosine of the clamped normalised dot product.  The
    specification leaves open what the helper does on a vector of zero
    magnitude (section 9); no test for that case is modelled. *)
Definition angle_between (v1 v2 : vec) : result R :=
  Ok (acos (np.clip
              (np.dot v1 v2 / (np.linalg.norm v1 * np.linalg.norm v2))
              (-1) 1)).

End path_features.

(** ** [compute_advanced] *)

Section ComputeAdvanced.

(** The imported helper; the function below only calls it. *)
Variable angle_between : vec -> vec -> result R.

Definition edge_points (df : DataFrame) : result EdgePoints :=
  x0 <- np.min (col_x df) ;;
  x1 <- np.max (col_x df) ;;
  y0 <- np.min (col_y df) ;;
  y1 <- np.max (col_y df) ;;
  Ok (mkEdgePoints x0 x1 y0 y1).

Definition center_of (ep : EdgePoints) : vec :=
  ((xmin ep + xmax ep) / 2, (ymin ep + ymax ep) / 2).

Definition vectors_of (df : DataFrame) (center : vec) : result (list vec) :=
  mapM (fun p => row_minus (keys df) p center) (rows df).

Definition compute_advanced (path_obj : pyobj) : result FeatureBundle :=
  match path_obj with
  | PyDataFrame df =>
    if negb (issuperset (keys df) ["x"; "y"]%string) then
      Raise (ValueError "the keys of path_obj must contain 'x', 'y'")
    else if (len df <=? 2)%nat then
      Raise (ValueError "path_obj must contain at least 3 rows")
    else
      (* Computes edge points, area of rectangle and center point *)
      ep <- edge_points df ;;
      let area_rec := (xmax ep - xmin ep) * (ymax ep - ymin ep) in
      let center := center_of ep in
      (* Computes radius *)
      vectors <- vectors_of df center ;;
      let radius := map np.linalg.norm vectors in
      (* Computes center angles *)
      center_angles <-
        mapM (fun '(v1, v2) => angle_between v1 v2)
             (zip (tl vectors) (removelast vectors)) ;;
      (* Computes area covered *)
      let zipped := zip3 (tl radius) (removelast radius) center_angles in
      let areas :=
        map (fun '(v1, v2, theta) => v1 * v2 * sin theta / 2) zipped in
      let area_cov := sum areas in
      (* Computes distance between start and end points *)
      initial <- first (rows df) ;;
      end_ <- final (rows df) ;;
      let abs_distance :=
        sqrt ((fst end_ - fst initial) ^ 2 + (snd end_ - snd initial) ^ 2) in
      Ok (mkFeatureBundle radius center_angles area_cov area_rec abs_distance)
  | PyList _ => Raise (TypeError "path_obj must be pandas DataFrame")
  end.

End ComputeAdvanced.

(** The comprehension that builds [center_angles], seen on its own: the
    calls of the helper made for a list of radius vectors. *)
Definition angle_calls (angle_between : vec -> vec -> result R)
  (vs : list vec) : result (list R) :=
  mapM (fun '(v1, v2) => angle_between v1 v2) (zip (tl vs) (removelast vs)).

(** The term added to [area_cov] for one zipped triple. *)
Definition sector (z : R * R * R) : R :=
  let '(v1, v2, theta) := z in v1 * v2 * sin theta / 2.

(** ** Vocabulary of the specification *)

(** The radius vectors of the rows about a centre. *)
Definition radius_vectors (df : DataFrame) (center : vec) : list vec :=
  map (fun p => vsub p center) (rows df).

(** The label slice ['x':'y'] selects two columns: y is the column right
    after x. *)
Definition sliced (df : DataFrame) : Prop :=
  List.length (slice_xy (keys df)) = 2%nat.

(** A valid input: a DataFrame with columns [x] and [y] and at least three
    rows. *)
Definition valid (df : DataFrame) : Prop :=
  issuperset (keys df) ["x"; "y"]%string = true /\ (3 <= len df)%nat.

(** Coordinate-wise extrema. *)
Definition is_min (m : R) (l : list R) : Prop :=
  In m l /\ forall x, In x l -> m <= x.

Definition is_max (m : R) (l : list R) : Prop :=
  In m l /\ forall x, In x l -> x <= m.

(** Euclidean distance between two points. *)
Definition euclid (p q : vec) : R :=
  sqrt ((fst p - fst q) ^ 2 + (snd p - snd q) ^ 2).

(** Arithmetic mean of the points, the centre the code does not use. *)
Definition mean_point (l : list vec) : vec :=
  (sum (map fst l) / INR (List.length l), sum (map snd l) / INR (List.length l)).

(** Sum of [f 0 + ... + f (n - 1)]. *)
Fixpoint sum_upto (f : nat -> R) (n : nat) : R :=
  match n with
  | O => 0
  | S k => sum_upto f k + f k
  end.

(** The same table with its rows in reverse order. *)
Definition reversed (df : DataFrame) : DataFrame :=
  mkDataFrame (keys df) (rev (rows df)).

(** The square path of the specification's example. *)
Definition square : DataFrame :=
  mkDataFrame ["x"; "y"]%string [(0, 0); (2, 0); (2, 2); (0, 2)].

Definition square_bundle : FeatureBundle :=
  mkFeatureBundle [sqrt 2; sqrt 2; sqrt 2; sqrt 2]
                  [PI / 2; PI / 2; PI / 2] 3 4 2.

(** A path whose bounding-box centre is not the mean of its points. *)
Definition lopsided : DataFrame :=
  mkDataFrame ["x"; "y"]%string [(0, 0); (0, 0); (3, 3)].



(** ** Transformed tables and derived quantities *)

(** The table moved by the vector [t]. *)
Definition vadd (p t : vec) : vec := (fst p + fst t, snd p + snd t).

Definition shifted (t : vec) (df : DataFrame) : DataFrame :=
  mkDataFrame (keys df) (map (fun p => vadd p t) (rows df)).

(** The table with both coordinates multiplied by [k]. *)
Definition smul (k : R) (v : vec) : vec := (k * fst v, k * snd v).

Definition scaled (k : R) (df : DataFrame) : DataFrame :=
  mkDataFrame (keys df) (map (smul k) (rows df)).

(** Width, height and diagonal of the bounding box. *)
Definition width (ep : EdgePoints) : R := xmax ep - xmin ep.
Definition height (ep : EdgePoints) : R := ymax ep - ymin ep.
Definition diagonal (ep : EdgePoints) : R := sqrt (width ep ^ 2 + height ep ^ 2).

(** The square path started at its second corner. *)
Definition square_turned : DataFrame :=
  mkDataFrame ["t"; "x"; "y"; "isHB"]%string [(2, 0); (2, 2); (0, 2); (0, 0)].

(** The two messages of the function's own [ValueError]s. *)
Definition keys_error : exn :=
  ValueError "the keys of path_obj must contain 'x', 'y'".
Definition rows_error : exn :=
  ValueError "path_obj must contain at least 3 rows".

(** ** The error monad *)

Lemma bind_Ok {A B : Type} (c : result A) (k : A -> result B) (b : B) :
  bind c k = Ok b -> exists a, c = Ok a /\ k a = Ok b.
Proof.
  destruct c as [a | e]; simpl; intros H; [exists a; auto | discriminate].
Qed.

Lemma mapM_length {A B : Type} (f : A -> result B) (l : list A) (bs : list B) :
  mapM f l = Ok bs -> List.length bs = List.length l.
Proof.
  revert bs; induction l as [| a t IH]; simpl; intros bs H.
  - inversion H; reflexivity.
  - apply bind_Ok in H as (b & _ & H).
    apply bind_Ok in H as (bs' & Ht & H).
    inversion H; subst; simpl; f_equal; auto.
Qed.

Lemma mapM_nth {A B : Type} (f : A -> result B) (l : list A) (bs : list B)
      (i : nat) (da : A) (db : B) :
  mapM f l = Ok bs -> (i < List.length l)%nat ->
  f (nth i l da) = Ok (nth i bs db).
Proof.
  revert bs i; induction l as [| a t IH]; simpl; intros bs i H Hi; [lia |].
  apply bind_Ok in H as (b & Hb & H).
  apply bind_Ok in H as (bs' & Ht & H).
  inversion H; subst.
  destruct i as [| i]; simpl; [assumption | apply IH; [assumption | lia]].
Qed.

Lemma mapM_total {A B : Type} (f : A -> result B) (l : list A) :
  (forall a, In a l -> exists b, f a = Ok b) -> exists bs, mapM f l = Ok bs.
Proof.
  induction l as [| a t IH]; simpl; intros H; [eexists; reflexivity |].
  destruct (H a) as (b & Hb); [auto |].
  destruct IH as (bs & Hbs); [intros; apply H; auto |].
  exists (b :: bs); rewrite Hb; simpl; rewrite Hbs; reflexivity.
Qed.


(** ** Extrema *)

Lemma fold_left_Rmin_is_min (t : list R) (a : R) :
  is_min (fold_left Rmin t a) (a :: t).
Proof.
  revert a; induction t as [| b t IH]; intros a; simpl.
  - split; [simpl; auto | intros x [<- | []]; lra].
  - destruct (IH (Rmin a b)) as [Hin Hle]; split.
    + destruct Hin as [Hin | Hin]; [| simpl; auto].
      rewrite <- Hin; unfold Rmin; destruct (Rle_dec a b); simpl; auto.
    + intros x [-> | [-> | Hx]].
      * apply Rle_trans with (Rmin x b); [apply Hle; left; reflexivity | apply Rmin_l].
      * apply Rle_trans with (Rmin a x); [apply Hle; left; reflexivity | apply Rmin_r].
      * apply Hle; right; assumption.
Qed.

Lemma fold_left_Rmax_is_max (t : list R) (a : R) :
  is_max (fold_left Rmax t a) (a :: t).
Proof.
  revert a; induction t as [| b t IH]; intros a; simpl.
  - split; [simpl; auto | intros x [<- | []]; lra].
  - destruct (IH (Rmax a b)) as [Hin Hle]; split.
    + destruct Hin as [Hin | Hin]; [| simpl; auto].
      rewrite <- Hin; unfold Rmax; destruct (Rle_dec a b); simpl; auto.
    + intros x [-> | [-> | Hx]].
      * apply Rle_trans with (Rmax x b); [apply Rmax_l | apply Hle; left; reflexivity].
      * apply Rle_trans with (Rmax a x); [apply Rmax_r | apply Hle; left; reflexivity].
      * apply Hle; right; assumption.
Qed.

Lemma np_min_is_min (l : list R) (m : R) : np.min l = Ok m -> is_min m l.
Proof.
  destruct l as [| a t]; simpl; intros H; [discriminate |].
  inversion H; apply fold_left_Rmin_is_min.
Qed.

Lemma np_max_is_max (l : list R) (m : R) : np.max l = Ok m -> is_max m l.
Proof.
  destruct l as [| a t]; simpl; intros H; [discriminate |].
  inversion H; apply fold_left_Rmax_is_max.
Qed.

Lemma np_min_total (l : list R) : l <> [] -> exists m, np.min l = Ok m.
Proof. destruct l; [congruence | eexists; reflexivity]. Qed.

Lemma np_max_total (l : list R) : l <> [] -> exists m, np.max l = Ok m.
Proof. destruct l; [congruence | eexists; reflexivity]. Qed.

Lemma is_min_unique (l : list R) (m m' : R) : is_min m l -> is_min m' l -> m = m'.
Proof.
  intros [Hin Hle] [Hin' Hle']; apply Rle_antisym; auto.
Qed.

Lemma is_max_unique (l : list R) (m m' : R) : is_max m l -> is_max m' l -> m = m'.
Proof.
  intros [Hin Hle] [Hin' Hle']; apply Rle_antisym; auto.
Qed.

Lemma is_min_rev (l : list R) (m : R) : is_min m l -> is_min m (rev l).
Proof.
  intros [Hin Hle]; split; [apply in_rev; rewrite rev_involutive; assumption |].
  intros x Hx; apply Hle, in_rev; assumption.
Qed.

Lemma is_max_rev (l : list R) (m : R) : is_max m l -> is_max m (rev l).
Proof.
  intros [Hin Hle]; split; [apply in_rev; rewrite rev_involutive; assumption |].
  intros x Hx; apply Hle, in_rev; assumption.
Qed.

Lemma is_min_le_is_max (l : list R) (lo hi : R) : is_min lo l -> is_max hi l -> lo <= hi.
Proof. intros [Hin _] [_ Hle]; auto. Qed.

Lemma is_min_max_const (l : list R) (lo hi c : R) :
  is_min lo l -> is_max hi l -> (forall x, In x l -> x = c) -> hi - lo = 0.
Proof.
  intros [Hlo _] [Hhi _] Hc; rewrite (Hc _ Hlo), (Hc _ Hhi); lra.
Qed.

(** ** Unfolding [compute_advanced] *)

Lemma last_cons_default {A : Type} (t : list A) (a d : A) :
  last (a :: t) d = last t a.
Proof.
  revert a d; induction t as [| b t IH]; intros a d; [reflexivity |].
  change (last (a :: b :: t) d) with (last (b :: t) d).
  rewrite (IH b d), (IH b a); reflexivity.
Qed.

Lemma valid_rows (df : DataFrame) :
  valid df -> exists p0 p1 p2 t, rows df = p0 :: p1 :: p2 :: t.
Proof.
  intros [_ Hlen]; unfold len in Hlen.
  destruct (rows df) as [| p0 [| p1 [| p2 t]]]; simpl in Hlen; try lia.
  exists p0, p1, p2, t; reflexivity.
Qed.

Lemma edge_points_total (df : DataFrame) :
  rows df <> [] -> exists ep, edge_points df = Ok ep.
Proof.
  intros Hne; unfold edge_points, col_x, col_y.
  destruct (rows df) as [| p t]; [congruence |]; simpl.
  eexists; reflexivity.
Qed.

Lemma edge_points_extrema (df : DataFrame) (ep : EdgePoints) :
  edge_points df = Ok ep ->
  is_min (xmin ep) (col_x df) /\ is_max (xmax ep) (col_x df) /\
  is_min (ymin ep) (col_y df) /\ is_max (ymax ep) (col_y df).
Proof.
  unfold edge_points; intros H.
  apply bind_Ok in H as (x0 & Hx0 & H).
  apply bind_Ok in H as (x1 & Hx1 & H).
  apply bind_Ok in H as (y0 & Hy0 & H).
  apply bind_Ok in H as (y1 & Hy1 & H).
  inversion H; subst; simpl.
  auto using np_min_is_min, np_max_is_max.
Qed.

(** ** The label slice *)

Lemma index_of_app (k : string) (pre l : list string) :
  ~ In k pre -> index_of k (pre ++ l) = (List.length pre + index_of k l)%nat.
Proof.
  induction pre as [| a t IH]; simpl; intros Hn; [reflexivity |].
  destruct (String.eqb a k) eqn:E.
  - apply String.eqb_eq in E; tauto.
  - rewrite IH by tauto; reflexivity.
Qed.

Lemma index_of_lt (k : string) (l : list string) :
  In k l -> (index_of k l < List.length l)%nat.
Proof.
  induction l as [| a t IH]; simpl; intros Hin; [contradiction |].
  destruct (String.eqb a k) eqn:E; [lia |].
  apply String.eqb_neq in E; destruct Hin as [Ha | Hin]; [congruence |].
  specialize (IH Hin); lia.
Qed.

Lemma index_of_head (k : string) (l : list string) :
  In k l -> index_of k l = 0%nat -> exists t, l = k :: t.
Proof.
  destruct l as [| a t]; simpl; intros Hin H; [contradiction |].
  destruct (String.eqb a k) eqn:E; [| discriminate].
  apply String.eqb_eq in E; subst; eauto.
Qed.

Lemma first_occurrence (k : string) (l : list string) :
  In k l -> exists pre rest, l = pre ++ k :: rest /\ ~ In k pre.
Proof.
  induction l as [| a t IH]; simpl; intros Hin; [contradiction |].
  destruct (string_dec a k) as [-> | Hne].
  - exists [], t; simpl; auto.
  - destruct Hin as [Ha | Hin]; [congruence |].
    destruct (IH Hin) as (pre & rest & -> & Hn).
    exists (a :: pre), rest; simpl; split; [reflexivity | tauto].
Qed.

Lemma skipn_length_app {A : Type} (pre post : list A) :
  skipn (List.length pre) (pre ++ post) = post.
Proof. induction pre as [| a t IH]; simpl; auto. Qed.

(** With distinct column names the slice selects two columns exactly when y
    is the column right after x. *)
Lemma slice_xy_adjacent (ks : list string) :
  NoDup ks -> In "x"%string ks -> In "y"%string ks ->
  (List.length (slice_xy ks) = 2%nat <->
   exists pre post, ks = pre ++ "x"%string :: "y"%string :: post).
Proof.
  intros Hnd Hx Hy; split.
  - intros Hlen.
    destruct (first_occurrence _ _ Hx) as (pre & rest & -> & Hpre).
    unfold slice_xy in Hlen.
    rewrite (index_of_app "x" pre _ Hpre) in Hlen; simpl index_of in Hlen.
    rewrite Nat.add_0_r, skipn_length_app in Hlen.
    assert (Hypre : ~ In "y"%string pre).
    { intros Hin.
      assert (index_of "y" (pre ++ "x"%string :: rest) < List.length pre)%nat.
      { clear - Hin; induction pre as [| a t IH]; simpl in *; [contradiction |].
        destruct (String.eqb a "y") eqn:E; [lia |].
        apply String.eqb_neq in E; destruct Hin as [Ha | Hin]; [congruence |].
        specialize (IH Hin); lia. }
      replace (S (index_of "y" (pre ++ "x"%string :: rest)) - List.length pre)%nat
        with 0%nat in Hlen by lia.
      simpl in Hlen; discriminate. }
    rewrite (index_of_app "y" pre _ Hypre) in Hlen; simpl index_of in Hlen.
    assert (Hyrest : In "y"%string rest).
    { apply in_app_or in Hy; destruct Hy as [Hy | [Hy | Hy]];
        [contradiction | discriminate | assumption]. }
    pose proof (index_of_lt _ _ Hyrest) as Hlt.
    replace (S (List.length pre + S (index_of "y" rest)) - List.length pre)%nat
      with (S (S (index_of "y" rest))) in Hlen by lia.
    rewrite length_firstn in Hlen; simpl List.length in Hlen.
    assert (Hz : index_of "y" rest = 0%nat) by lia.
    destruct (index_of_head _ _ Hyrest Hz) as (post & ->).
    exists pre, post; reflexivity.
  - intros (pre & post & ->).
    assert (Hpx : ~ In "x"%string pre).
    { apply NoDup_remove_2 in Hnd; intros Hin; apply Hnd, in_or_app; auto. }
    assert (Hpy : ~ In "y"%string pre).
    { change (pre ++ "x"%string :: "y"%string :: post)
        with (pre ++ ["x"%string] ++ "y"%string :: post) in Hnd.
      rewrite app_assoc in Hnd; apply NoDup_remove_2 in Hnd.
      intros Hin; apply Hnd, in_or_app; left; apply in_or_app; auto. }
    unfold slice_xy.
    rewrite (index_of_app "x" pre _ Hpx), (index_of_app "y" pre _ Hpy); simpl index_of.
    rewrite Nat.add_0_r, skipn_length_app.
    replace (S (List.length pre + 1) - List.length pre)%nat with 2%nat by lia.
    reflexivity.
Qed.

Lemma slice_xy_layouts :
  slice_xy ["t"; "x"; "y"; "isHB"]%string = ["x"; "y"]%string /\
  slice_xy ["x"; "z"; "y"]%string = ["x"; "z"; "y"]%string /\
  slice_xy ["y"; "x"]%string = [].
Proof. repeat split. Qed.

Lemma sliced_dec (df : DataFrame) : sliced df \/ ~ sliced df.
Proof.
  unfold sliced; destruct (Nat.eq_dec (List.length (slice_xy (keys df))) 2); auto.
Qed.

Lemma vectors_of_sliced (df : DataFrame) (c : vec) :
  sliced df -> vectors_of df c = Ok (radius_vectors df c).
Proof.
  unfold sliced, vectors_of, radius_vectors, row_minus; intros ->; simpl.
  induction (rows df) as [| p t IH]; simpl; [reflexivity |].
  rewrite IH; reflexivity.
Qed.

Lemma vectors_of_unsliced (df : DataFrame) (c : vec) :
  ~ sliced df -> rows df <> [] -> vectors_of df c = Raise slice_error.
Proof.
  unfold sliced, vectors_of, row_minus; intros Hn Hne.
  destruct (rows df) as [| p t]; [congruence |]; simpl.
  replace (List.length (slice_xy (keys df)) =? 2)%nat with false
    by (symmetry; apply Nat.eqb_neq; assumption).
  reflexivity.
Qed.

Section Unfolding.

Variable angle_between : vec -> vec -> result R.

Lemma compute_advanced_guards (df : DataFrame) :
  valid df ->
  exists ep, edge_points df = Ok ep /\
    compute_advanced angle_between (PyDataFrame df) =
    (vectors <- vectors_of df (center_of ep) ;;
     angles <- angle_calls angle_between vectors ;;
     let rs := map np.linalg.norm vectors in
     Ok (mkFeatureBundle rs angles
           (sum (map sector
                     (zip3 (tl rs) (removelast rs) angles)))
           ((xmax ep - xmin ep) * (ymax ep - ymin ep))
           (euclid (last (rows df) (0, 0)) (hd (0, 0) (rows df))))).
Proof.
  intros Hv; destruct (valid_rows df Hv) as (p0 & p1 & p2 & t & Hrows).
  destruct (edge_points_total df) as (ep & Hep); [rewrite Hrows; discriminate |].
  exists ep; split; [assumption |].
  destruct Hv as [Hk Hlen]; unfold compute_advanced.
  rewrite Hk; simpl negb; cbv iota.
  replace (len df <=? 2)%nat with false
    by (symmetry; apply Nat.leb_gt; lia).
  rewrite Hep; cbn [bind].
  destruct (vectors_of df (center_of ep)) as [vectors | e]; cbn [bind];
    [| reflexivity].
  unfold angle_calls.
  destruct (mapM _ _) as [angles | e]; cbn [bind]; [| reflexivity].
  rewrite Hrows; cbn [first final bind].
  rewrite (last_cons_default _ p0 (0, 0)); reflexivity.
Qed.

Lemma compute_advanced_valid (df : DataFrame) :
  valid df -> sliced df ->
  exists ep, edge_points df = Ok ep /\
    compute_advanced angle_between (PyDataFrame df) =
    (angles <- angle_calls angle_between (radius_vectors df (center_of ep)) ;;
     let rs := map np.linalg.norm (radius_vectors df (center_of ep)) in
     Ok (mkFeatureBundle rs angles
           (sum (map sector
                     (zip3 (tl rs) (removelast rs) angles)))
           ((xmax ep - xmin ep) * (ymax ep - ymin ep))
           (euclid (last (rows df) (0, 0)) (hd (0, 0) (rows df))))).
Proof.
  intros Hv Hs; destruct (compute_advanced_guards df Hv) as (ep & Hep & Heq).
  exists ep; split; [assumption |].
  rewrite Heq, (vectors_of_sliced df _ Hs); reflexivity.
Qed.

Lemma compute_advanced_unsliced (df : DataFrame) :
  valid df -> ~ sliced df ->
  compute_advanced angle_between (PyDataFrame df) = Raise slice_error.
Proof.
  intros Hv Hn; destruct (compute_advanced_guards df Hv) as (ep & Hep & Heq).
  rewrite Heq, (vectors_of_unsliced df _ Hn); [reflexivity |].
  destruct (valid_rows df Hv) as (p0 & p1 & p2 & t & ->); discriminate.
Qed.

Lemma compute_advanced_Ok_valid (df : DataFrame) (b : FeatureBundle) :
  compute_advanced angle_between (PyDataFrame df) = Ok b -> valid df.
Proof.
  unfold compute_advanced, valid; intros H.
  destruct (issuperset _ _); simpl in H; [| discriminate].
  destruct (len df <=? 2)%nat eqn:Hlen; [discriminate |].
  apply Nat.leb_gt in Hlen; split; [reflexivity | lia].
Qed.

Lemma compute_advanced_Ok_sliced (df : DataFrame) (b : FeatureBundle) :
  compute_advanced angle_between (PyDataFrame df) = Ok b -> sliced df.
Proof.
  intros H; pose proof (compute_advanced_Ok_valid df b H) as Hv.
  destruct (sliced_dec df) as [Hs | Hn]; [assumption |].
  rewrite (compute_advanced_unsliced df Hv Hn) in H; discriminate.
Qed.

Lemma compute_advanced_Ok (df : DataFrame) (b : FeatureBundle) :
  compute_advanced angle_between (PyDataFrame df) = Ok b ->
  valid df /\
  exists ep, edge_points df = Ok ep /\
    angle_calls angle_between (radius_vectors df (center_of ep)) = Ok (center_angles b) /\
    radius b = map np.linalg.norm (radius_vectors df (center_of ep)) /\
    area_cov b =
      sum (map sector
               (zip3 (tl (radius b)) (removelast (radius b)) (center_angles b))) /\
    area_rec b = (xmax ep - xmin ep) * (ymax ep - ymin ep) /\
    abs_distance b = euclid (last (rows df) (0, 0)) (hd (0, 0) (rows df)).
Proof.
  intros H; pose proof (compute_advanced_Ok_valid df b H) as Hv.
  pose proof (compute_advanced_Ok_sliced df b H) as Hs.
  split; [assumption |].
  destruct (compute_advanced_valid df Hv Hs) as (ep & Hep & Heq).
  rewrite Heq in H; apply bind_Ok in H as (angles & Hang & H).
  exists ep; inversion H; subst; simpl; auto 10.
Qed.

End Unfolding.

(** ** Adjacent pairs of a list *)

Lemma removelast_len {A : Type} (l : list A) :
  List.length (removelast l) = (List.length l - 1)%nat.
Proof.
  induction l as [| a [| b t] IH]; simpl in *; try reflexivity.
  rewrite IH; lia.
Qed.

Lemma nth_tl_S {A : Type} (l : list A) (i : nat) (d : A) :
  nth i (tl l) d = nth (S i) l d.
Proof. destruct l; destruct i; reflexivity. Qed.

Lemma nth_removelast {A : Type} (l : list A) (i : nat) (d : A) :
  (S i < List.length l)%nat -> nth i (removelast l) d = nth i l d.
Proof.
  revert i; induction l as [| a [| b t] IH]; intros i Hi; simpl in Hi; try lia.
  destruct i as [| i]; [reflexivity |].
  change (nth i (removelast (b :: t)) d = nth i (b :: t) d).
  apply IH; simpl; lia.
Qed.

Lemma adjacent_length {A : Type} (l : list A) :
  List.length (zip (tl l) (removelast l)) = (List.length l - 1)%nat.
Proof.
  unfold zip; rewrite length_combine, length_tl, removelast_len; lia.
Qed.

Lemma adjacent_nth {A : Type} (l : list A) (i : nat) (d : A) :
  (S i < List.length l)%nat ->
  nth i (zip (tl l) (removelast l)) (d, d) = (nth (S i) l d, nth i l d).
Proof.
  intros Hi; unfold zip.
  rewrite combine_nth by (rewrite length_tl, removelast_len; reflexivity).
  rewrite nth_tl_S, nth_removelast by assumption; reflexivity.
Qed.


Lemma angle_calls_length (ab : vec -> vec -> result R) (vs : list vec) (angles : list R) :
  angle_calls ab vs = Ok angles ->
  List.length angles = (List.length vs - 1)%nat.
Proof.
  unfold angle_calls; intros H.
  rewrite (mapM_length _ _ _ H); apply adjacent_length.
Qed.

Lemma angle_calls_nth (ab : vec -> vec -> result R) (vs : list vec) (angles : list R)
      (i : nat) (d : vec) :
  angle_calls ab vs = Ok angles -> (S i < List.length vs)%nat ->
  ab (nth (S i) vs d) (nth i vs d) = Ok (nth i angles 0).
Proof.
  unfold angle_calls; intros H Hi.
  pose proof (mapM_nth _ _ _ i (d, d) 0 H) as Hn.
  rewrite adjacent_nth in Hn by assumption.
  apply Hn; rewrite adjacent_length; lia.
Qed.

Lemma radius_vectors_length (df : DataFrame) (c : vec) :
  List.length (radius_vectors df c) = len df.
Proof. unfold radius_vectors, len; apply length_map. Qed.

Lemma radius_vectors_nth (df : DataFrame) (c : vec) (i : nat) (d : vec) :
  nth i (radius_vectors df c) (vsub d c) = vsub (nth i (rows df) d) c.
Proof. unfold radius_vectors; apply (map_nth (fun p => vsub p c)). Qed.

(** ** Norms and the modelled angle *)

Lemma norm_nonneg (v : vec) : 0 <= np.linalg.norm v.
Proof. apply sqrt_pos. Qed.

Lemma norm_sq (v : vec) :
  np.linalg.norm v * np.linalg.norm v = fst v ^ 2 + snd v ^ 2.
Proof. unfold np.linalg.norm; apply sqrt_sqrt; nra. Qed.

Lemma norm_zero_iff (v : vec) : np.linalg.norm v = 0 <-> v = (0, 0).
Proof.
  split.
  - intros H; pose proof (norm_sq v) as Hs; rewrite H in Hs.
    destruct v as [x y]; simpl in *.
    assert (x = 0) by nra; assert (y = 0) by nra; subst; reflexivity.
  - intros ->; unfold np.linalg.norm; simpl.
    replace (0 * (0 * 1) + 0 * (0 * 1)) with 0 by lra; apply sqrt_0.
Qed.

Lemma norm_value (v : vec) (s : R) :
  fst v ^ 2 + snd v ^ 2 = s -> np.linalg.norm v = sqrt s.
Proof. intros <-; reflexivity. Qed.

Lemma euclid_nonneg (p q : vec) : 0 <= euclid p q.
Proof. apply sqrt_pos. Qed.

Lemma clip_id (a : R) : -1 <= a <= 1 -> np.clip a (-1) 1 = a.
Proof.
  intros H; unfold np.clip, Rmin, Rmax.
  destruct (Rle_dec a (-1)); destruct (Rle_dec _ 1); lra.
Qed.

Lemma angle_between_Ok (v1 v2 : vec) :
  path_features.angle_between v1 v2 =
  Ok (acos (np.clip (np.dot v1 v2 / (np.linalg.norm v1 * np.linalg.norm v2)) (-1) 1)).
Proof. reflexivity. Qed.

Lemma angle_between_inv (v1 v2 : vec) (theta : R) :
  path_features.angle_between v1 v2 = Ok theta ->
  theta = acos (np.clip (np.dot v1 v2 / (np.linalg.norm v1 * np.linalg.norm v2)) (-1) 1).
Proof. rewrite angle_between_Ok; intros H; inversion H; reflexivity. Qed.

Lemma angle_between_sym (v1 v2 : vec) :
  path_features.angle_between v1 v2 = path_features.angle_between v2 v1.
Proof.
  rewrite !angle_between_Ok; do 3 f_equal; unfold np.dot; f_equal; ring.
Qed.

Lemma dot_zero_norm (v1 v2 : vec) :
  np.linalg.norm v1 = 0 \/ np.linalg.norm v2 = 0 -> np.dot v1 v2 = 0.
Proof.
  intros [H | H]; apply norm_zero_iff in H; subst; unfold np.dot; simpl; ring.
Qed.


(** ** The square path *)

(** Decides [Rmin] and [Rmax] of numerals. *)
Ltac extrema := unfold Rmin, Rmax; repeat destruct (Rle_dec _ _); lra.

Lemma square_valid : valid square.
Proof. split; [reflexivity | unfold len; simpl; lia]. Qed.

Lemma square_sliced : sliced square.
Proof. reflexivity. Qed.

Lemma square_edge_points : edge_points square = Ok (mkEdgePoints 0 2 0 2).
Proof.
  unfold edge_points, col_x, col_y; simpl.
  assert (E1 : Rmin (Rmin (Rmin 0 2) 2) 0 = 0)
    by extrema.
  assert (E2 : Rmax (Rmax (Rmax 0 2) 2) 0 = 2)
    by extrema.
  assert (E3 : Rmin (Rmin (Rmin 0 0) 2) 2 = 0)
    by extrema.
  assert (E4 : Rmax (Rmax (Rmax 0 0) 2) 2 = 2)
    by extrema.
  rewrite E1, E2, E3, E4; reflexivity.
Qed.

Lemma right_angle (v1 v2 : vec) :
  np.linalg.norm v1 = sqrt 2 -> np.linalg.norm v2 = sqrt 2 -> np.dot v1 v2 = 0 ->
  path_features.angle_between v1 v2 = Ok (PI / 2).
Proof.
  intros H1 H2 Hd.
  rewrite angle_between_Ok.
  rewrite Hd; unfold Rdiv at 1; rewrite Rmult_0_l.
  rewrite clip_id by lra; rewrite acos_0; reflexivity.
Qed.

Lemma square_vectors :
  radius_vectors square (center_of (mkEdgePoints 0 2 0 2)) =
  [(-1, -1); (1, -1); (1, 1); (-1, 1)].
Proof.
  unfold radius_vectors, center_of, vsub; simpl.
  repeat (f_equal; try lra).
Qed.

Lemma square_computes :
  compute_advanced path_features.angle_between (PyDataFrame square) = Ok square_bundle.
Proof.
  destruct (compute_advanced_valid path_features.angle_between square
              square_valid square_sliced) as (ep & Hep & Heq).
  rewrite square_edge_points in Hep; inversion Hep; subst ep; clear Hep.
  rewrite Heq, square_vectors; clear Heq.
  assert (N1 : np.linalg.norm (-1, -1) = sqrt 2) by (apply norm_value; simpl; lra).
  assert (N2 : np.linalg.norm (1, -1) = sqrt 2) by (apply norm_value; simpl; lra).
  assert (N3 : np.linalg.norm (1, 1) = sqrt 2) by (apply norm_value; simpl; lra).
  assert (N4 : np.linalg.norm (-1, 1) = sqrt 2) by (apply norm_value; simpl; lra).
  unfold angle_calls, zip; cbn [tl removelast combine mapM map].
  rewrite (right_angle (1, -1) (-1, -1)), (right_angle (1, 1) (1, -1)),
    (right_angle (-1, 1) (1, 1)) by (assumption || (unfold np.dot; simpl; lra)).
  cbn [bind]; rewrite N1, N2, N3, N4.
  unfold square_bundle; do 2 f_equal.
  - unfold zip3, sum, sector; cbn [tl removelast combine map fold_left].
    rewrite sin_PI2; pose proof (sqrt_sqrt 2 ltac:(lra)); lra.
  - simpl; lra.
  - unfold euclid, square; cbn [rows last hd fst snd].
    replace ((0 - 0) ^ 2 + (2 - 0) ^ 2) with (2 * 2) by (simpl; lra).
    apply sqrt_square; lra.
Qed.

(** ** Input validation *)

Lemma issuperset_xy (ks : list string) :
  issuperset ks ["x"; "y"]%string = true <->
  In "x"%string ks /\ In "y"%string ks.
Proof.
  unfold issuperset; cbn [forallb]; rewrite !andb_true_iff, !existsb_exists.
  split.
  - intros ((x & Hx & Ex) & (y & Hy & Ey) & _).
    apply String.eqb_eq in Ex, Ey; subst; auto.
  - intros [Hx Hy]; repeat split.
    + exists "x"%string; auto using String.eqb_refl.
    + exists "y"%string; auto using String.eqb_refl.
Qed.

Lemma compute_advanced_result (ab : vec -> vec -> result R) (df : DataFrame) :
  valid df ->
  (exists b, compute_advanced ab (PyDataFrame df) = Ok b) \/
  (~ sliced df /\ compute_advanced ab (PyDataFrame df) = Raise slice_error) \/
  (exists v1 v2 e, ab v1 v2 = Raise e /\
                   compute_advanced ab (PyDataFrame df) = Raise e).
Proof.
  intros Hv; destruct (sliced_dec df) as [Hs | Hn];
    [| right; left; split; [assumption | apply compute_advanced_unsliced; assumption]].
  destruct (compute_advanced_valid ab df Hv Hs) as (ep & _ & Heq).
  rewrite Heq; clear Heq; unfold angle_calls.
  set (pairs := zip _ _); clearbody pairs.
  destruct (mapM _ pairs) as [angles | e] eqn:Hm.
  - left; eexists; reflexivity.
  - right; right; revert e Hm; induction pairs as [| [v1 v2] t IH]; simpl; intros e Hm.
    + discriminate.
    + destruct (ab v1 v2) as [a | e1] eqn:H12; simpl in Hm.
      * destruct (mapM _ t) as [bs | e2]; simpl in Hm; [discriminate |].
        inversion Hm; subst; destruct (IH e eq_refl) as (w1 & w2 & e' & Hw & He).
        exists w1, w2, e'; split; [assumption |].
        simpl in He; inversion He; reflexivity.
      * inversion Hm; subst; exists v1, v2, e; auto.
Qed.

(** C1.  Shape invariant: whenever [compute_advanced] accepts a table of N
    rows and returns a bundle, the input was valid (columns x and y, N >= 3),
    [radius] has N entries, [center_angles] has N - 1, and both follow the
    order of the rows: entry i of [radius] is the norm of the radius vector
    of row i, entry i of [center_angles] is what the angle helper returned
    for the radius vectors of rows i + 1 and i. *)
Theorem shape_invariant (ab : vec -> vec -> result R) (df : DataFrame)
        (b : FeatureBundle) :
  compute_advanced ab (PyDataFrame df) = Ok b ->
  valid df /\
  List.length (radius b) = len df /\
  List.length (center_angles b) = (len df - 1)%nat /\
  exists ep, edge_points df = Ok ep /\
    (forall i d, (i < len df)%nat ->
       nth i (radius b) 0 =
       np.linalg.norm (vsub (nth i (rows df) d) (center_of ep))) /\
    (forall i d, (S i < len df)%nat ->
       ab (vsub (nth (S i) (rows df) d) (center_of ep))
          (vsub (nth i (rows df) d) (center_of ep)) =
       Ok (nth i (center_angles b) 0)).
Proof.
  intros H.
  destruct (compute_advanced_Ok ab df b H)
    as (Hv & ep & Hep & Hang & Hrad & _).
  split; [assumption |].
  split; [rewrite Hrad, length_map; apply radius_vectors_length |].
  split.
  { rewrite (angle_calls_length _ _ _ Hang), radius_vectors_length; reflexivity. }
  exists ep; split; [assumption |]; split.
  - intros i d Hi; rewrite Hrad.
    rewrite (nth_indep _ 0 (np.linalg.norm (vsub d (center_of ep))))
      by (rewrite length_map, radius_vectors_length; assumption).
    rewrite map_nth, radius_vectors_nth; reflexivity.
  - intros i d Hi; rewrite <- !radius_vectors_nth.
    apply angle_calls_nth; [assumption | rewrite radius_vectors_length; assumption].
Qed.

Lemma shape_invariant_witness :
  List.length (radius square_bundle) = len square /\
  List.length (center_angles square_bundle) = (len square - 1)%nat.
Proof.
  pose proof (shape_invariant path_features.angle_between square square_bundle
                square_computes) as (_ & Hr & Ha & _).
  split; assumption.
Defined.

(** C2.  Validation fails fast: a value that is not a DataFrame raises
    TypeError; a DataFrame lacking column x or column y raises ValueError; a
    DataFrame of two or fewer rows raises ValueError; and a DataFrame with
    both columns and three or more rows passes validation, so that the call
    either returns a bundle, or ends with numpy's exception because the
    label slice from x to y does not select two columns, or ends with an
    exception raised by the angle helper.  A raised exception carries no
    bundle. *)
Theorem validation_errors (ab : vec -> vec -> result R) :
  (forall pts,
     compute_advanced ab (PyList pts) =
     Raise (TypeError "path_obj must be pandas DataFrame")) /\
  (forall df,
     ~ (In "x"%string (keys df) /\ In "y"%string (keys df)) ->
     compute_advanced ab (PyDataFrame df) =
     Raise (ValueError "the keys of path_obj must contain 'x', 'y'")) /\
  (forall df,
     (len df <= 2)%nat ->
     exists msg, compute_advanced ab (PyDataFrame df) = Raise (ValueError msg)) /\
  (forall df,
     In "x"%string (keys df) -> In "y"%string (keys df) -> (3 <= len df)%nat ->
     (exists b, compute_advanced ab (PyDataFrame df) = Ok b) \/
     (~ sliced df /\ compute_advanced ab (PyDataFrame df) = Raise slice_error) \/
     (exists v1 v2 e, ab v1 v2 = Raise e /\
                      compute_advanced ab (PyDataFrame df) = Raise e)).
Proof.
  repeat split.
  - intros df Hk; unfold compute_advanced.
    destruct (issuperset (keys df) _) eqn:Hs; [| reflexivity].
    apply issuperset_xy in Hs; contradiction.
  - intros df Hlen; unfold compute_advanced.
    destruct (issuperset (keys df) _); simpl; [| eexists; reflexivity].
    replace (len df <=? 2)%nat with true
      by (symmetry; apply Nat.leb_le; assumption).
    eexists; reflexivity.
  - intros df Hx Hy Hlen; apply compute_advanced_result.
    split; [apply issuperset_xy; auto | assumption].
Qed.

Lemma validation_errors_witness :
  compute_advanced path_features.angle_between
    (PyList [(0, 0); (2, 0); (2, 2); (0, 2)]) =
  Raise (TypeError "path_obj must be pandas DataFrame") /\
  compute_advanced path_features.angle_between
    (PyDataFrame (mkDataFrame ["t"; "x"]%string [(0, 0); (2, 0); (2, 2)])) =
  Raise (ValueError "the keys of path_obj must contain 'x', 'y'") /\
  (exists msg,
     compute_advanced path_features.angle_between
       (PyDataFrame (mkDataFrame ["x"; "y"]%string [(0, 0); (2, 0)])) =
     Raise (ValueError msg)) /\
  ((exists b,
      compute_advanced path_features.angle_between
        (PyDataFrame (mkDataFrame ["x"; "y"]%string [(0, 0); (2, 0); (2, 2)])) =
      Ok b) \/
   (~ sliced (mkDataFrame ["x"; "y"]%string [(0, 0); (2, 0); (2, 2)]) /\
    compute_advanced path_features.angle_between
      (PyDataFrame (mkDataFrame ["x"; "y"]%string [(0, 0); (2, 0); (2, 2)])) =
    Raise slice_error) \/
   (exists v1 v2 e,
      path_features.angle_between v1 v2 = Raise e /\
      compute_advanced path_features.angle_between
        (PyDataFrame (mkDataFrame ["x"; "y"]%string [(0, 0); (2, 0); (2, 2)])) =
      Raise e)).
Proof.
  destruct (validation_errors path_features.angle_between) as (H1 & H2 & H3 & H4).
  split; [apply H1 |].
  split.
  { apply H2; simpl; intros [_ [Hy | [Hy | []]]]; discriminate. }
  split.
  { apply H3; unfold len; simpl; lia. }
  apply H4; simpl; auto; unfold len; simpl; lia.
Defined.

(** ** A point on the centre *)




Lemma angle_calls_total (ab : vec -> vec -> result R) (vs : list vec) :
  (forall v1 v2, exists theta, ab v1 v2 = Ok theta) ->
  exists angles, angle_calls ab vs = Ok angles.
Proof.
  intros Hab; unfold angle_calls; apply mapM_total.
  intros [v1 v2] _; apply Hab.
Qed.


Lemma compute_advanced_total_helper (ab : vec -> vec -> result R) (df : DataFrame) :
  valid df -> sliced df ->
  (forall v1 v2, exists theta, ab v1 v2 = Ok theta) ->
  exists b, compute_advanced ab (PyDataFrame df) = Ok b.
Proof.
  intros Hv Hs Hab.
  destruct (compute_advanced_valid ab df Hv Hs) as (ep & _ & Heq).
  destruct (angle_calls_total ab (radius_vectors df (center_of ep)) Hab)
    as (angles & Hang).
  rewrite Heq, Hang; eexists; reflexivity.
Qed.

Lemma compute_advanced_returns (df : DataFrame) :
  valid df -> sliced df ->
  exists b, compute_advanced path_features.angle_between (PyDataFrame df) = Ok b.
Proof.
  intros Hv Hs; apply compute_advanced_total_helper; try assumption.
  intros v1 v2; eexists; apply angle_between_Ok.
Qed.





(** ** Radius *)

Lemma lopsided_edge_points : edge_points lopsided = Ok (mkEdgePoints 0 3 0 3).
Proof.
  unfold edge_points, col_x, col_y; simpl.
  assert (E1 : Rmin (Rmin 0 0) 3 = 0)
    by extrema.
  assert (E2 : Rmax (Rmax 0 0) 3 = 3)
    by extrema.
  rewrite E1, E2; reflexivity.
Qed.

(** C4.  Centre and radius: the centre used by [compute_advanced] is the
    midpoint of the bounding box, whose sides are the least and greatest x
    and y of the rows, and [radius] lists, in row order, the Euclidean
    distance of each row to that centre, each entry being non-negative.  The
    midpoint is not the arithmetic mean of the points: the two differ on the
    path (0,0), (0,0), (3,3). *)
Theorem centroid_and_radius :
  (forall (ab : vec -> vec -> result R) (df : DataFrame) (b : FeatureBundle),
     compute_advanced ab (PyDataFrame df) = Ok b ->
     exists ep, edge_points df = Ok ep /\
       is_min (xmin ep) (col_x df) /\ is_max (xmax ep) (col_x df) /\
       is_min (ymin ep) (col_y df) /\ is_max (ymax ep) (col_y df) /\
       center_of ep = ((xmin ep + xmax ep) / 2, (ymin ep + ymax ep) / 2) /\
       radius b = map (fun p => euclid p (center_of ep)) (rows df) /\
       Forall (fun r => 0 <= r) (radius b)) /\
  (valid lopsided /\
   exists ep, edge_points lopsided = Ok ep /\
     center_of ep <> mean_point (rows lopsided)).
Proof.
  split.
  - intros ab df b H.
    destruct (compute_advanced_Ok ab df b H) as (_ & ep & Hep & _ & Hrad & _).
    destruct (edge_points_extrema df ep Hep) as (H1 & H2 & H3 & H4).
    exists ep; repeat (split; [assumption || reflexivity |]).
    assert (Hr : radius b = map (fun p => euclid p (center_of ep)) (rows df)).
    { rewrite Hrad; unfold radius_vectors; rewrite map_map; reflexivity. }
    split; [assumption |].
    rewrite Hr; apply Forall_forall; intros r Hin.
    apply in_map_iff in Hin as (p & <- & _); apply euclid_nonneg.
  - split; [split; [reflexivity | unfold len; simpl; lia] |].
    exists (mkEdgePoints 0 3 0 3); split; [apply lopsided_edge_points |].
    unfold center_of, mean_point, sum; simpl; intros Heq.
    apply (f_equal fst) in Heq; simpl in Heq.
    replace ((0 + 0 + 0 + 3) / (1 + 1 + 1)) with 1 in Heq by field.
    lra.
Qed.

Lemma centroid_and_radius_witness :
  exists ep, edge_points square = Ok ep /\
    radius square_bundle = map (fun p => euclid p (center_of ep)) (rows square) /\
    Forall (fun r => 0 <= r) (radius square_bundle).
Proof.
  destruct centroid_and_radius as [H _].
  destruct (H path_features.angle_between square square_bundle square_computes)
    as (ep & Hep & _ & _ & _ & _ & _ & Hr & Hf).
  exists ep; auto.
Defined.

(** ** Center angles *)

Lemma center_angles_nth (ab : vec -> vec -> result R) (df : DataFrame)
      (b : FeatureBundle) (ep : EdgePoints) (i : nat) (d : vec) :
  compute_advanced ab (PyDataFrame df) = Ok b -> edge_points df = Ok ep ->
  (S i < len df)%nat ->
  ab (vsub (nth (S i) (rows df) d) (center_of ep))
     (vsub (nth i (rows df) d) (center_of ep)) =
  Ok (nth i (center_angles b) 0).
Proof.
  intros H Hep Hi.
  destruct (compute_advanced_Ok ab df b H) as (_ & ep' & Hep' & Hang & _).
  rewrite Hep in Hep'; inversion Hep'; subst ep'.
  rewrite <- !radius_vectors_nth.
  apply angle_calls_nth; [assumption | rewrite radius_vectors_length; assumption].
Qed.

Lemma center_angles_length (ab : vec -> vec -> result R) (df : DataFrame)
      (b : FeatureBundle) :
  compute_advanced ab (PyDataFrame df) = Ok b ->
  List.length (center_angles b) = (len df - 1)%nat.
Proof.
  intros H.
  destruct (compute_advanced_Ok ab df b H) as (_ & ep & _ & Hang & _).
  rewrite (angle_calls_length _ _ _ Hang), radius_vectors_length; reflexivity.
Qed.

Lemma radius_length (ab : vec -> vec -> result R) (df : DataFrame)
      (b : FeatureBundle) :
  compute_advanced ab (PyDataFrame df) = Ok b ->
  List.length (radius b) = len df.
Proof.
  intros H.
  destruct (compute_advanced_Ok ab df b H) as (_ & ep & _ & _ & Hrad & _).
  rewrite Hrad, length_map; apply radius_vectors_length.
Qed.

Lemma angle_between_range (v1 v2 : vec) (theta : R) :
  path_features.angle_between v1 v2 = Ok theta -> 0 <= theta <= PI.
Proof.
  intros H; apply angle_between_inv in H as ->; apply acos_bound.
Qed.




(** ** Area covered *)

Lemma sum_from (l : list R) (a : R) : fold_left Rplus l a = a + sum l.
Proof.
  unfold sum; revert a; induction l as [| x t IH]; intros a; simpl.
  - lra.
  - rewrite (IH (a + x)), (IH (0 + x)); lra.
Qed.

Lemma sum_cons (x : R) (l : list R) : sum (x :: l) = x + sum l.
Proof. unfold sum at 1; simpl; rewrite sum_from; lra. Qed.

Lemma sum_app (l l' : list R) : sum (l ++ l') = sum l + sum l'.
Proof.
  induction l as [| x t IH]; simpl.
  - unfold sum at 2; simpl; lra.
  - rewrite !sum_cons, IH; lra.
Qed.

Lemma sum_rev (l : list R) : sum (rev l) = sum l.
Proof.
  induction l as [| x t IH]; simpl; [reflexivity |].
  rewrite sum_app, !sum_cons, IH; unfold sum; simpl; lra.
Qed.

Lemma sum_upto_ext (f g : nat -> R) (n : nat) :
  (forall i, (i < n)%nat -> f i = g i) -> sum_upto f n = sum_upto g n.
Proof.
  induction n as [| n IH]; simpl; intros H; [reflexivity |].
  rewrite IH, H by (intros; try apply H; lia); reflexivity.
Qed.

Lemma sum_upto_nonneg (f : nat -> R) (n : nat) :
  (forall i, (i < n)%nat -> 0 <= f i) -> 0 <= sum_upto f n.
Proof.
  induction n as [| n IH]; simpl; intros H; [lra |].
  assert (0 <= sum_upto f n) by (apply IH; intros; apply H; lia).
  assert (0 <= f n) by (apply H; lia); lra.
Qed.

Lemma sum_sum_upto (l : list R) :
  sum l = sum_upto (fun i => nth i l 0) (List.length l).
Proof.
  induction l as [| x t IH] using rev_ind; [reflexivity |].
  rewrite sum_app, length_app, Nat.add_comm; simpl.
  rewrite sum_cons, IH; unfold sum at 1; simpl.
  rewrite nth_middle, Rplus_0_r; f_equal.
  apply sum_upto_ext; intros i Hi; rewrite app_nth1 by assumption; reflexivity.
Qed.

Lemma sectors_nth (rs angles : list R) (i : nat) :
  List.length angles = (List.length rs - 1)%nat -> (i < List.length angles)%nat ->
  nth i (map sector (zip3 (tl rs) (removelast rs) angles)) 0 =
  nth (S i) rs 0 * nth i rs 0 * sin (nth i angles 0) / 2.
Proof.
  intros Hlen Hi; unfold zip3.
  assert (Hl : List.length (combine (tl rs) (removelast rs)) = List.length angles).
  { rewrite length_combine, length_tl, removelast_len; lia. }
  rewrite (nth_indep _ 0 (sector (0, 0, 0)))
    by (rewrite length_map, length_combine; lia).
  rewrite map_nth, combine_nth by assumption.
  rewrite combine_nth by (rewrite length_tl, removelast_len; reflexivity).
  rewrite nth_tl_S, nth_removelast by lia; reflexivity.
Qed.

Lemma area_cov_sum_upto (ab : vec -> vec -> result R) (df : DataFrame)
      (b : FeatureBundle) :
  compute_advanced ab (PyDataFrame df) = Ok b ->
  area_cov b =
  sum_upto (fun i => nth (S i) (radius b) 0 * nth i (radius b) 0 *
                     sin (nth i (center_angles b) 0) / 2) (len df - 1).
Proof.
  intros H.
  pose proof (radius_length _ _ _ H) as Hr.
  pose proof (center_angles_length _ _ _ H) as Ha.
  destruct (compute_advanced_Ok ab df b H) as (_ & ep & _ & _ & _ & Hcov & _).
  assert (Hl : List.length (map sector (zip3 (tl (radius b)) (removelast (radius b))
                                             (center_angles b))) = (len df - 1)%nat).
  { unfold zip3; rewrite length_map, !length_combine, length_tl, removelast_len; lia. }
  rewrite Hcov, sum_sum_upto, Hl.
  apply sum_upto_ext; intros i Hi; apply sectors_nth; lia.
Qed.

Lemma radius_nth_nonneg (ab : vec -> vec -> result R) (df : DataFrame)
      (b : FeatureBundle) (i : nat) :
  compute_advanced ab (PyDataFrame df) = Ok b -> 0 <= nth i (radius b) 0.
Proof.
  intros H.
  destruct (compute_advanced_Ok ab df b H) as (_ & ep & _ & _ & Hrad & _).
  destruct (nth_in_or_default i (radius b) 0) as [Hin | ->]; [| lra].
  rewrite Hrad in Hin at 2; apply in_map_iff in Hin as (v & <- & _).
  apply norm_nonneg.
Qed.

(** C6.  Area covered: [area_cov] is the sum, over the N - 1 adjacent pairs
    (i, i + 1), of radius[i+1] * radius[i] * sin(center_angles[i]) / 2; each
    term is non-negative, because each center angle lies in [[0, PI]], and so
    is the sum. *)
Theorem area_cov_fan (df : DataFrame) (b : FeatureBundle) :
  compute_advanced path_features.angle_between (PyDataFrame df) = Ok b ->
  let term := fun i => nth (S i) (radius b) 0 * nth i (radius b) 0 *
                       sin (nth i (center_angles b) 0) / 2 in
  area_cov b = sum_upto term (len df - 1) /\
  (forall i, (i < len df - 1)%nat ->
     0 <= nth i (center_angles b) 0 <= PI /\ 0 <= term i) /\
  0 <= area_cov b.
Proof.
  intros H term.
  assert (Hterm : forall i, (i < len df - 1)%nat ->
                            0 <= nth i (center_angles b) 0 <= PI /\ 0 <= term i).
  { intros i Hi.
    destruct (compute_advanced_Ok _ df b H) as (_ & ep & Hep & _).
    pose proof (center_angles_nth _ df b ep i (0, 0) H Hep ltac:(lia)) as Hth.
    apply angle_between_range in Hth; split; [assumption |].
    pose proof (radius_nth_nonneg _ df b (S i) H).
    pose proof (radius_nth_nonneg _ df b i H).
    pose proof (sin_ge_0 _ (proj1 Hth) (proj2 Hth)).
    unfold term, Rdiv; repeat apply Rmult_le_pos; try assumption; lra. }
  split; [apply (area_cov_sum_upto _ _ _ H) |].
  split; [assumption |].
  rewrite (area_cov_sum_upto _ _ _ H); apply sum_upto_nonneg.
  intros i Hi; apply Hterm; assumption.
Qed.

Lemma area_cov_fan_witness :
  area_cov square_bundle =
  sum_upto (fun i => nth (S i) (radius square_bundle) 0 *
                     nth i (radius square_bundle) 0 *
                     sin (nth i (center_angles square_bundle) 0) / 2)
           (len square - 1) /\
  0 <= area_cov square_bundle.
Proof.
  destruct (area_cov_fan square square_bundle square_computes) as (Hs & _ & Hn).
  split; assumption.
Defined.

(** ** Rectangle area and absolute distance *)

Lemma euclid_sym (p q : vec) : euclid p q = euclid q p.
Proof. unfold euclid; f_equal; ring. Qed.

Lemma hd_default {A : Type} (l : list A) (d d' : A) : l <> [] -> hd d l = hd d' l.
Proof. destruct l; [congruence | reflexivity]. Qed.

Lemma last_default {A : Type} (l : list A) (d d' : A) :
  l <> [] -> last l d = last l d'.
Proof.
  destruct l as [| a t]; [congruence | intros _].
  rewrite !last_cons_default; reflexivity.
Qed.

Lemma last_nth {A : Type} (l : list A) (d : A) :
  last l d = nth (List.length l - 1) l d.
Proof.
  induction l as [| a [| b t] IH]; try reflexivity.
  change (last (a :: b :: t) d) with (last (b :: t) d); rewrite IH.
  simpl List.length; rewrite !Nat.sub_succ, !Nat.sub_0_r; reflexivity.
Qed.

Lemma valid_rows_nonempty (df : DataFrame) : valid df -> rows df <> [].
Proof.
  intros Hv; destruct (valid_rows df Hv) as (p0 & p1 & p2 & t & ->); discriminate.
Qed.

(** C7.  Rectangle area: [area_rec] is (xmax - xmin) * (ymax - ymin) for
    the least and greatest x and y over all rows; it is non-negative, and it
    is 0 as soon as all rows share one x value or all rows share one y
    value. *)
Theorem area_rec_spec (ab : vec -> vec -> result R) (df : DataFrame)
        (b : FeatureBundle) :
  compute_advanced ab (PyDataFrame df) = Ok b ->
  exists x0 x1 y0 y1,
    is_min x0 (col_x df) /\ is_max x1 (col_x df) /\
    is_min y0 (col_y df) /\ is_max y1 (col_y df) /\
    area_rec b = (x1 - x0) * (y1 - y0) /\
    0 <= area_rec b /\
    ((exists c, forall p, In p (rows df) -> fst p = c) -> area_rec b = 0) /\
    ((exists c, forall p, In p (rows df) -> snd p = c) -> area_rec b = 0).
Proof.
  intros H.
  destruct (compute_advanced_Ok ab df b H)
    as (_ & ep & Hep & _ & _ & _ & Hrec & _).
  destruct (edge_points_extrema df ep Hep) as (H1 & H2 & H3 & H4).
  exists (xmin ep), (xmax ep), (ymin ep), (ymax ep).
  repeat (split; [assumption |]).
  pose proof (is_min_le_is_max _ _ _ H1 H2) as Hx.
  pose proof (is_min_le_is_max _ _ _ H3 H4) as Hy.
  split; [rewrite Hrec; apply Rmult_le_pos; lra |].
  split; intros (c & Hc); rewrite Hrec.
  - rewrite (is_min_max_const (col_x df) _ _ c H1 H2); [ring |].
    intros x Hin; unfold col_x in Hin; apply in_map_iff in Hin as (p & <- & Hp); auto.
  - rewrite (is_min_max_const (col_y df) _ _ c H3 H4); [ring |].
    intros y Hin; unfold col_y in Hin; apply in_map_iff in Hin as (p & <- & Hp); auto.
Qed.

Lemma area_rec_spec_witness :
  exists x0 x1 y0 y1,
    is_min x0 (col_x square) /\ is_max x1 (col_x square) /\
    is_min y0 (col_y square) /\ is_max y1 (col_y square) /\
    area_rec square_bundle = (x1 - x0) * (y1 - y0) /\
    0 <= area_rec square_bundle.
Proof.
  destruct (area_rec_spec path_features.angle_between square square_bundle
              square_computes)
    as (x0 & x1 & y0 & y1 & H1 & H2 & H3 & H4 & H5 & H6 & _).
  exists x0, x1, y0, y1; auto 10.
Defined.

(** C8.  Absolute distance: [abs_distance] is the Euclidean distance
    between the last row and the first row of the table, taken by position,
    and it is non-negative. *)
Theorem abs_distance_spec (ab : vec -> vec -> result R) (df : DataFrame)
        (b : FeatureBundle) :
  compute_advanced ab (PyDataFrame df) = Ok b ->
  forall d,
    abs_distance b = euclid (hd d (rows df)) (last (rows df) d) /\
    hd d (rows df) = nth 0 (rows df) d /\
    last (rows df) d = nth (len df - 1) (rows df) d /\
    0 <= abs_distance b.
Proof.
  intros H d.
  destruct (compute_advanced_Ok ab df b H)
    as (Hv & ep & _ & _ & _ & _ & _ & Hd).
  pose proof (valid_rows_nonempty df Hv) as Hne.
  split; [| split; [| split]].
  - rewrite Hd, euclid_sym.
    rewrite (hd_default _ _ d Hne), (last_default _ _ d Hne); reflexivity.
  - destruct (rows df); reflexivity.
  - apply last_nth.
  - rewrite Hd; apply euclid_nonneg.
Qed.

Lemma abs_distance_spec_witness :
  abs_distance square_bundle = euclid (0, 0) (0, 2) /\
  0 <= abs_distance square_bundle.
Proof.
  destruct (abs_distance_spec path_features.angle_between square square_bundle
              square_computes (0, 0)) as (H1 & _ & _ & H2).
  split; [exact H1 | exact H2].
Defined.

(** C9.  The square path (0,0), (2,0), (2,2), (0,2): its centre is (1,1);
    every bundle returned for it has [area_rec] 4, the four radii equal to
    the square root of 2 and [abs_distance] 2; and with the modelled angle
    helper the call does return, the center angles being right angles and
    [area_cov] being 3. *)
Theorem square_example :
  (exists ep, edge_points square = Ok ep /\ center_of ep = (1, 1)) /\
  (forall (ab : vec -> vec -> result R) (b : FeatureBundle),
     compute_advanced ab (PyDataFrame square) = Ok b ->
     area_rec b = 4 /\
     radius b = [sqrt 2; sqrt 2; sqrt 2; sqrt 2] /\
     abs_distance b = 2) /\
  compute_advanced path_features.angle_between (PyDataFrame square) =
  Ok square_bundle.
Proof.
  split; [| split].
  - exists (mkEdgePoints 0 2 0 2); split; [apply square_edge_points |].
    unfold center_of; simpl; f_equal; lra.
  - intros ab b H.
    destruct (compute_advanced_Ok ab square b H)
      as (_ & ep & Hep & _ & Hrad & _ & Hrec & Hd).
    rewrite square_edge_points in Hep; inversion Hep; subst ep; clear Hep.
    split; [rewrite Hrec; simpl; lra |].
    split.
    + rewrite Hrad, square_vectors; cbn [map].
      rewrite (norm_value (-1, -1) 2), (norm_value (1, -1) 2),
        (norm_value (1, 1) 2), (norm_value (-1, 1) 2) by (simpl; lra).
      reflexivity.
    + rewrite Hd; unfold euclid, square; cbn [rows last hd fst snd].
      replace ((0 - 0) ^ 2 + (2 - 0) ^ 2) with (2 * 2) by (simpl; lra).
      apply sqrt_square; lra.
  - apply square_computes.
Qed.

Lemma square_example_witness :
  area_rec square_bundle = 4 /\
  radius square_bundle = [sqrt 2; sqrt 2; sqrt 2; sqrt 2] /\
  abs_distance square_bundle = 2.
Proof.
  destruct square_example as (_ & H & Hc).
  exact (H path_features.angle_between square_bundle Hc).
Defined.

(** ** Reversing the path *)

Lemma tl_rev {A : Type} (l : list A) : tl (rev l) = rev (removelast l).
Proof.
  induction l as [| a t IH] using rev_ind; [reflexivity |].
  rewrite rev_unit, removelast_last; reflexivity.
Qed.

Lemma removelast_rev {A : Type} (l : list A) : removelast (rev l) = rev (tl l).
Proof.
  destruct l as [| a t]; [reflexivity |].
  simpl; apply removelast_last.
Qed.

Lemma combine_rev {A B : Type} (l : list A) (l' : list B) :
  List.length l = List.length l' ->
  combine (rev l) (rev l') = rev (combine l l').
Proof.
  revert l'; induction l as [| a t IH]; intros [| b t'] Hlen;
    simpl in *; try discriminate; [reflexivity |].
  injection Hlen as Hlen; rewrite <- IH by assumption.
  assert (Hr : List.length (rev t) = List.length (rev t'))
    by (rewrite !length_rev; assumption).
  revert Hr; generalize (rev t) (rev t'); clear.
  induction l as [| x l IH]; intros [| y l'] Hlen; simpl in *;
    try discriminate; [reflexivity |].
  injection Hlen as Hlen; rewrite IH by assumption; reflexivity.
Qed.

Lemma hd_rev_last {A : Type} (l : list A) (d : A) : hd d (rev l) = last l d.
Proof.
  induction l as [| a t IH] using rev_ind; [reflexivity |].
  rewrite rev_unit, last_last; reflexivity.
Qed.

Lemma last_rev_hd {A : Type} (l : list A) (d : A) : last (rev l) d = hd d l.
Proof.
  destruct l as [| a t]; [reflexivity |].
  simpl; apply last_last.
Qed.

Lemma mapM_app {A B : Type} (f : A -> result B) (l l' : list A) (bs bs' : list B) :
  mapM f l = Ok bs -> mapM f l' = Ok bs' -> mapM f (l ++ l') = Ok (bs ++ bs').
Proof.
  revert bs; induction l as [| a t IH]; simpl; intros bs H H'.
  - inversion H; assumption.
  - apply bind_Ok in H as (b & Hb & H).
    apply bind_Ok in H as (bs0 & Ht & H).
    inversion H; subst; rewrite Hb; simpl.
    rewrite (IH bs0 Ht H'); reflexivity.
Qed.

Lemma mapM_rev {A B : Type} (f : A -> result B) (l : list A) (bs : list B) :
  mapM f l = Ok bs -> mapM f (rev l) = Ok (rev bs).
Proof.
  revert bs; induction l as [| a t IH]; simpl; intros bs H.
  - inversion H; reflexivity.
  - apply bind_Ok in H as (b & Hb & H).
    apply bind_Ok in H as (bs0 & Ht & H).
    inversion H; subst; simpl.
    apply mapM_app; [auto | simpl; rewrite Hb; reflexivity].
Qed.

Lemma mapM_swap (ab : vec -> vec -> result R) (l l' : list vec) :
  (forall v w, ab v w = ab w v) ->
  mapM (fun '(v1, v2) => ab v1 v2) (combine l l') =
  mapM (fun '(v1, v2) => ab v1 v2) (combine l' l).
Proof.
  intros Hsym; revert l'; induction l as [| a t IH]; intros [| b t'];
    simpl; try reflexivity.
  rewrite (Hsym a b), IH; reflexivity.
Qed.

Lemma sectors_swap (l l' angles : list R) :
  map sector (combine (combine l l') angles) =
  map sector (combine (combine l' l) angles).
Proof.
  revert l' angles; induction l as [| a t IH]; intros [| b t'] [| th ths];
    cbn [combine map]; try reflexivity.
  rewrite IH; apply (f_equal2 cons); [unfold sector; cbv beta iota; field | reflexivity].
Qed.

Lemma np_min_rev (l : list R) : np.min (rev l) = np.min l.
Proof.
  destruct l as [| a t]; [reflexivity |].
  destruct (np_min_total (rev (a :: t))) as (m' & Hm').
  { intros E; apply (f_equal (@List.length R)) in E.
    rewrite length_rev in E; discriminate. }
  destruct (np_min_total (a :: t)) as (m & Hm); [discriminate |].
  rewrite Hm', Hm; f_equal.
  apply (is_min_unique (a :: t)); [| apply np_min_is_min; assumption].
  rewrite <- (rev_involutive (a :: t)).
  apply is_min_rev, np_min_is_min; assumption.
Qed.

Lemma np_max_rev (l : list R) : np.max (rev l) = np.max l.
Proof.
  destruct l as [| a t]; [reflexivity |].
  destruct (np_max_total (rev (a :: t))) as (m' & Hm').
  { intros E; apply (f_equal (@List.length R)) in E.
    rewrite length_rev in E; discriminate. }
  destruct (np_max_total (a :: t)) as (m & Hm); [discriminate |].
  rewrite Hm', Hm; f_equal.
  apply (is_max_unique (a :: t)); [| apply np_max_is_max; assumption].
  rewrite <- (rev_involutive (a :: t)).
  apply is_max_rev, np_max_is_max; assumption.
Qed.

Lemma edge_points_reversed (df : DataFrame) :
  edge_points (reversed df) = edge_points df.
Proof.
  unfold edge_points, col_x, col_y, reversed; simpl.
  rewrite !map_rev, !np_min_rev, !np_max_rev; reflexivity.
Qed.

Lemma valid_reversed (df : DataFrame) : valid df -> valid (reversed df).
Proof.
  intros [Hk Hlen]; split; [assumption |].
  unfold len, reversed; simpl; rewrite length_rev; assumption.
Qed.

Lemma radius_vectors_reversed (df : DataFrame) (c : vec) :
  radius_vectors (reversed df) c = rev (radius_vectors df c).
Proof. unfold radius_vectors, reversed; simpl; apply map_rev. Qed.

Lemma angle_calls_rev (ab : vec -> vec -> result R) (vs : list vec) (angles : list R) :
  (forall v w, ab v w = ab w v) ->
  angle_calls ab vs = Ok angles -> angle_calls ab (rev vs) = Ok (rev angles).
Proof.
  unfold angle_calls, zip; intros Hsym H.
  rewrite tl_rev, removelast_rev.
  rewrite combine_rev by (rewrite length_tl, removelast_len; reflexivity).
  apply mapM_rev; rewrite (mapM_swap ab _ _ Hsym); assumption.
Qed.

Lemma area_sum_rev (rs angles : list R) :
  List.length angles = (List.length rs - 1)%nat ->
  sum (map sector (zip3 (tl (rev rs)) (removelast (rev rs)) (rev angles))) =
  sum (map sector (zip3 (tl rs) (removelast rs) angles)).
Proof.
  intros Hlen; unfold zip3.
  rewrite tl_rev, removelast_rev.
  rewrite combine_rev by (rewrite length_tl, removelast_len; reflexivity).
  rewrite combine_rev
    by (rewrite length_combine, length_tl, removelast_len; lia).
  rewrite map_rev, sum_rev, sectors_swap; reflexivity.
Qed.

(** C10.  Reversal: when the angle helper is symmetric in its arguments and
    [compute_advanced] returns a bundle for a table, it also returns one for
    the table with its rows reversed; the two bundles have the same
    [area_rec], [area_cov] and [abs_distance], and [radius] and
    [center_angles] of the second are the reversals of those of the first. *)
Theorem reversal_symmetry (ab : vec -> vec -> result R) (df : DataFrame)
        (b : FeatureBundle) :
  (forall v w, ab v w = ab w v) ->
  compute_advanced ab (PyDataFrame df) = Ok b ->
  exists b',
    compute_advanced ab (PyDataFrame (reversed df)) = Ok b' /\
    area_rec b' = area_rec b /\
    area_cov b' = area_cov b /\
    abs_distance b' = abs_distance b /\
    radius b' = rev (radius b) /\
    center_angles b' = rev (center_angles b).
Proof.
  intros Hsym H.
  pose proof (radius_length _ _ _ H) as Hlr.
  pose proof (center_angles_length _ _ _ H) as Hla.
  destruct (compute_advanced_Ok ab df b H)
    as (Hv & ep & Hep & Hang & Hrad & Hcov & Hrec & Hd).
  pose proof (compute_advanced_Ok_sliced ab df b H) as Hs.
  destruct (compute_advanced_valid ab (reversed df) (valid_reversed df Hv) Hs)
    as (ep' & Hep' & Heq).
  rewrite edge_points_reversed, Hep in Hep'; inversion Hep'; subst ep'.
  rewrite Heq, radius_vectors_reversed, (angle_calls_rev ab _ _ Hsym Hang).
  cbn [bind]; rewrite map_rev, <- Hrad.
  eexists; split; [reflexivity |]; cbn [area_rec area_cov abs_distance radius center_angles].
  split; [symmetry; assumption |].
  split; [rewrite area_sum_rev by lia; symmetry; assumption |].
  split; [| split; reflexivity].
  unfold reversed; cbn [rows].
  rewrite last_rev_hd, hd_rev_last, euclid_sym; symmetry; assumption.
Qed.

Lemma reversal_symmetry_witness :
  exists b',
    compute_advanced path_features.angle_between (PyDataFrame (reversed square)) =
    Ok b' /\
    area_rec b' = area_rec square_bundle /\
    area_cov b' = area_cov square_bundle /\
    abs_distance b' = abs_distance square_bundle /\
    radius b' = rev (radius square_bundle) /\
    center_angles b' = rev (center_angles square_bundle).
Proof.
  apply (reversal_symmetry path_features.angle_between square square_bundle).
  - exact angle_between_sym.
  - exact square_computes.
Defined.

(** * Further properties of [compute_advanced] *)

(** ** Extrema under monotone maps *)

Lemma is_min_map (f : R -> R) (l : list R) (m : R) :
  (forall a b, a <= b -> f a <= f b) -> is_min m l -> is_min (f m) (map f l).
Proof.
  intros Hf [Hin Hle]; split; [apply in_map; assumption |].
  intros y Hy; apply in_map_iff in Hy as (x & <- & Hx); auto.
Qed.

Lemma is_max_map (f : R -> R) (l : list R) (m : R) :
  (forall a b, a <= b -> f a <= f b) -> is_max m l -> is_max (f m) (map f l).
Proof.
  intros Hf [Hin Hle]; split; [apply in_map; assumption |].
  intros y Hy; apply in_map_iff in Hy as (x & <- & Hx); auto.
Qed.

Lemma edge_points_map (fx fy : R -> R) (df df' : DataFrame) (ep ep' : EdgePoints) :
  (forall a b, a <= b -> fx a <= fx b) -> (forall a b, a <= b -> fy a <= fy b) ->
  rows df' = map (fun p => (fx (fst p), fy (snd p))) (rows df) ->
  edge_points df = Ok ep -> edge_points df' = Ok ep' ->
  ep' = mkEdgePoints (fx (xmin ep)) (fx (xmax ep)) (fy (ymin ep)) (fy (ymax ep)).
Proof.
  intros Hfx Hfy Hrows Hep Hep'.
  destruct (edge_points_extrema df ep Hep) as (H1 & H2 & H3 & H4).
  destruct (edge_points_extrema df' ep' Hep') as (H1' & H2' & H3' & H4').
  assert (Ex : col_x df' = map fx (col_x df))
    by (unfold col_x; rewrite Hrows, !map_map; reflexivity).
  assert (Ey : col_y df' = map fy (col_y df))
    by (unfold col_y; rewrite Hrows, !map_map; reflexivity).
  rewrite Ex in H1', H2'; rewrite Ey in H3', H4'.
  destruct ep' as [a b c d]; simpl in *; f_equal.
  - apply (is_min_unique _ _ _ H1'), is_min_map; assumption.
  - apply (is_max_unique _ _ _ H2'), is_max_map; assumption.
  - apply (is_min_unique _ _ _ H3'), is_min_map; assumption.
  - apply (is_max_unique _ _ _ H4'), is_max_map; assumption.
Qed.

(** ** Moving the path *)

Lemma valid_same_shape (df df' : DataFrame) :
  keys df' = keys df -> len df' = len df -> valid df -> valid df'.
Proof. unfold valid; intros -> ->; auto. Qed.

Lemma compute_advanced_not_valid (ab : vec -> vec -> result R) (df df' : DataFrame) :
  keys df' = keys df -> len df' = len df -> ~ valid df ->
  compute_advanced ab (PyDataFrame df') = compute_advanced ab (PyDataFrame df).
Proof.
  intros Hk Hl Hnv; unfold compute_advanced; rewrite Hk, Hl.
  destruct (issuperset (keys df) _) eqn:Hs; simpl; [| reflexivity].
  destruct (len df <=? 2)%nat eqn:Hlen; [reflexivity |].
  exfalso; apply Hnv; split; [assumption | apply Nat.leb_gt in Hlen; lia].
Qed.

Lemma valid_dec (df : DataFrame) : valid df \/ ~ valid df.
Proof.
  unfold valid; destruct (issuperset (keys df) _).
  - destruct (le_lt_dec 3 (len df)); [left; auto | right; intros [_ H]; lia].
  - right; intros [H _]; discriminate.
Qed.

Lemma hd_map {A B : Type} (f : A -> B) (l : list A) (d : A) :
  hd (f d) (map f l) = f (hd d l).
Proof. destruct l; reflexivity. Qed.

Lemma last_map {A B : Type} (f : A -> B) (l : list A) (d : A) :
  last (map f l) (f d) = f (last l d).
Proof.
  induction l as [| a [| b t] IH]; try reflexivity.
  change (last (map f (a :: b :: t)) (f d)) with (last (map f (b :: t)) (f d)).
  rewrite IH; reflexivity.
Qed.

Lemma euclid_vadd (p q t : vec) : euclid (vadd p t) (vadd q t) = euclid p q.
Proof. unfold euclid, vadd; simpl; f_equal; ring. Qed.

(** X1.  Translation: moving every row of a table by the same vector does
    not change the outcome of [compute_advanced], whatever the angle helper:
    the same exception, or the same bundle in all five fields. *)
Theorem translation_invariant (ab : vec -> vec -> result R) (t : vec)
        (df : DataFrame) :
  compute_advanced ab (PyDataFrame (shifted t df)) =
  compute_advanced ab (PyDataFrame df).
Proof.
  assert (Hl : len (shifted t df) = len df)
    by (unfold len, shifted; simpl; apply length_map).
  destruct (valid_dec df) as [Hv | Hnv];
    [| apply compute_advanced_not_valid; auto].
  pose proof (valid_same_shape df (shifted t df) eq_refl Hl Hv) as Hv'.
  destruct (sliced_dec df) as [Hs | Hn].
  2: { rewrite (compute_advanced_unsliced ab df Hv Hn).
       apply compute_advanced_unsliced; assumption. }
  destruct (compute_advanced_valid ab df Hv Hs) as (ep & Hep & ->).
  destruct (compute_advanced_valid ab (shifted t df) Hv' Hs) as (ep' & Hep' & ->).
  pose proof (edge_points_map (fun x => x + fst t) (fun y => y + snd t)
                df (shifted t df) ep ep'
                ltac:(intros; lra) ltac:(intros; lra) eq_refl Hep Hep') as ->.
  assert (Hvs : radius_vectors (shifted t df)
                  (center_of (mkEdgePoints (xmin ep + fst t) (xmax ep + fst t)
                                           (ymin ep + snd t) (ymax ep + snd t)))
                = radius_vectors df (center_of ep)).
  { unfold radius_vectors, shifted; simpl; rewrite map_map.
    apply map_ext; intros p; unfold vsub, vadd, center_of; simpl; f_equal; field. }
  rewrite Hvs; simpl xmin; simpl xmax; simpl ymin; simpl ymax.
  replace ((xmax ep + fst t - (xmin ep + fst t)) * (ymax ep + snd t - (ymin ep + snd t)))
    with ((xmax ep - xmin ep) * (ymax ep - ymin ep)) by ring.
  unfold shifted at 1 2; cbn [rows].
  assert (Hd : euclid (last (map (fun p => vadd p t) (rows df)) (0, 0))
                      (hd (0, 0) (map (fun p => vadd p t) (rows df)))
               = euclid (last (rows df) (0, 0)) (hd (0, 0) (rows df))).
  { pose proof (valid_rows_nonempty df Hv) as Hne.
    rewrite (last_default _ (0, 0) (vadd (0, 0) t)), (hd_default _ (0, 0) (vadd (0, 0) t))
      by (intros E; apply map_eq_nil in E; contradiction).
    pose proof (last_map (fun p => vadd p t) (rows df) (0, 0)) as E1.
    pose proof (hd_map (fun p => vadd p t) (rows df) (0, 0)) as E2.
    transitivity (euclid (vadd (last (rows df) (0, 0)) t)
                         (vadd (hd (0, 0) (rows df)) t));
      [apply f_equal2; [exact E1 | exact E2] | apply euclid_vadd]. }
  rewrite Hd; reflexivity.
Qed.

(** ** Changing the unit of length *)

Lemma norm_smul (k : R) (v : vec) :
  0 <= k -> np.linalg.norm (smul k v) = k * np.linalg.norm v.
Proof.
  intros Hk; unfold np.linalg.norm, smul; simpl.
  replace (k * fst v * (k * fst v * 1) + k * snd v * (k * snd v * 1))
    with ((k * k) * (fst v * (fst v * 1) + snd v * (snd v * 1))) by ring.
  rewrite sqrt_mult_alt by nra; rewrite sqrt_square by assumption; reflexivity.
Qed.

Lemma euclid_smul (k : R) (p q : vec) :
  0 <= k -> euclid (smul k p) (smul k q) = k * euclid p q.
Proof.
  intros Hk; unfold euclid, smul; simpl.
  replace ((k * fst p - k * fst q) * ((k * fst p - k * fst q) * 1) +
           (k * snd p - k * snd q) * ((k * snd p - k * snd q) * 1))
    with ((k * k) * ((fst p - fst q) * ((fst p - fst q) * 1) +
                     (snd p - snd q) * ((snd p - snd q) * 1))) by ring.
  rewrite sqrt_mult_alt by nra; rewrite sqrt_square by assumption; reflexivity.
Qed.

Lemma removelast_map {A B : Type} (f : A -> B) (l : list A) :
  removelast (map f l) = map f (removelast l).
Proof.
  induction l as [| a [| b t] IH]; simpl in *; try reflexivity.
  rewrite IH; reflexivity.
Qed.

Lemma combine_map_same {A B : Type} (f : A -> B) (l l' : list A) :
  combine (map f l) (map f l') = map (fun p => (f (fst p), f (snd p))) (combine l l').
Proof.
  revert l'; induction l as [| a t IH]; intros [| b t']; simpl; try reflexivity.
  rewrite IH; reflexivity.
Qed.

Lemma mapM_map {A B C : Type} (f : B -> result C) (g : A -> B) (l : list A) :
  mapM f (map g l) = mapM (fun a => f (g a)) l.
Proof.
  induction l as [| a t IH]; simpl; [reflexivity | rewrite IH; reflexivity].
Qed.

Lemma mapM_ext {A B : Type} (f g : A -> result B) (l : list A) :
  (forall a, f a = g a) -> mapM f l = mapM g l.
Proof.
  intros H; induction l as [| a t IH]; simpl; [reflexivity |].
  rewrite H, IH; reflexivity.
Qed.

Lemma angle_calls_smul (ab : vec -> vec -> result R) (k : R) (vs : list vec) :
  (forall v w, ab (smul k v) (smul k w) = ab v w) ->
  angle_calls ab (map (smul k) vs) = angle_calls ab vs.
Proof.
  intros Hab; unfold angle_calls, zip.
  rewrite tl_map, removelast_map, combine_map_same, mapM_map.
  apply mapM_ext; intros [v w]; simpl; apply Hab.
Qed.

Lemma sum_scale (c : R) (l : list R) : sum (map (Rmult c) l) = c * sum l.
Proof.
  induction l as [| x t IH]; simpl.
  - unfold sum; simpl; ring.
  - rewrite !sum_cons, IH; ring.
Qed.

Lemma sectors_scale (k : R) (l l' angles : list R) :
  map sector (combine (combine (map (Rmult k) l) (map (Rmult k) l')) angles) =
  map (Rmult (k * k)) (map sector (combine (combine l l') angles)).
Proof.
  revert l' angles; induction l as [| a t IH]; intros [| b t'] [| th ths];
    cbn [combine map]; try reflexivity.
  rewrite IH; apply (f_equal2 cons); [unfold sector; cbv beta iota; field | reflexivity].
Qed.

Lemma radius_vectors_scaled (k : R) (df : DataFrame) (ep : EdgePoints) :
  radius_vectors (scaled k df)
    (center_of (mkEdgePoints (k * xmin ep) (k * xmax ep) (k * ymin ep) (k * ymax ep)))
  = map (smul k) (radius_vectors df (center_of ep)).
Proof.
  unfold radius_vectors, scaled; simpl; rewrite !map_map.
  apply map_ext; intros p; unfold vsub, smul, center_of; simpl; f_equal; field.
Qed.

(** X2.  Change of unit: for a factor k > 0 and an angle helper that gives
    the same result on vectors scaled by k, if [compute_advanced] returns a
    bundle for a table it returns one for the table with all coordinates
    multiplied by k; the radii and [abs_distance] are multiplied by k,
    [area_rec] and [area_cov] by k * k, and the center angles are the
    same. *)
Theorem scaling (ab : vec -> vec -> result R) (k : R) (df : DataFrame)
        (b : FeatureBundle) :
  0 < k ->
  (forall v w, ab (smul k v) (smul k w) = ab v w) ->
  compute_advanced ab (PyDataFrame df) = Ok b ->
  exists b',
    compute_advanced ab (PyDataFrame (scaled k df)) = Ok b' /\
    radius b' = map (Rmult k) (radius b) /\
    center_angles b' = center_angles b /\
    area_cov b' = k * k * area_cov b /\
    area_rec b' = k * k * area_rec b /\
    abs_distance b' = k * abs_distance b.
Proof.
  intros Hk Hab H.
  destruct (compute_advanced_Ok ab df b H)
    as (Hv & ep & Hep & Hang & Hrad & Hcov & Hrec & Hd).
  assert (Hl : len (scaled k df) = len df)
    by (unfold len, scaled; simpl; apply length_map).
  pose proof (valid_same_shape df (scaled k df) eq_refl Hl Hv) as Hv'.
  pose proof (compute_advanced_Ok_sliced ab df b H) as Hs.
  destruct (compute_advanced_valid ab (scaled k df) Hv' Hs) as (ep' & Hep' & Heq).
  pose proof (edge_points_map (Rmult k) (Rmult k) df (scaled k df) ep ep'
                ltac:(intros; nra) ltac:(intros; nra) eq_refl Hep Hep') as ->.
  rewrite Heq, radius_vectors_scaled, angle_calls_smul, Hang by assumption.
  cbn [bind]; eexists; split; [reflexivity |].
  cbn [radius center_angles area_cov area_rec abs_distance xmin xmax ymin ymax].
  assert (Hr : map np.linalg.norm (map (smul k) (radius_vectors df (center_of ep)))
               = map (Rmult k) (radius b)).
  { rewrite Hrad, !map_map; apply map_ext; intros v; apply norm_smul; lra. }
  rewrite Hr; split; [reflexivity |]; split; [reflexivity |].
  split; [| split].
  - unfold zip3; rewrite tl_map, removelast_map, sectors_scale, sum_scale.
    rewrite Hcov; reflexivity.
  - rewrite Hrec; ring.
  - rewrite Hd; unfold scaled; cbn [rows].
    pose proof (valid_rows_nonempty df Hv) as Hne.
    rewrite (last_default _ (0, 0) (smul k (0, 0))), (hd_default _ (0, 0) (smul k (0, 0)))
      by (intros E; apply map_eq_nil in E; contradiction).
    rewrite last_map, hd_map; apply euclid_smul; lra.
Qed.

Lemma angle_between_smul (k : R) (v w : vec) :
  0 < k ->
  path_features.angle_between (smul k v) (smul k w) =
  path_features.angle_between v w.
Proof.
  intros Hk; rewrite !angle_between_Ok, !norm_smul by lra; do 3 f_equal.
  assert (Hd : np.dot (smul k v) (smul k w) = k * k * np.dot v w)
    by (unfold np.dot, smul; simpl; ring).
  rewrite Hd.
  destruct (Req_dec_T (np.linalg.norm v * np.linalg.norm w) 0) as [Z | N].
  - assert (Hz : np.dot v w = 0).
    { apply dot_zero_norm; apply Rmult_integral in Z; assumption. }
    rewrite Hz; unfold Rdiv; ring.
  - assert (N1 : np.linalg.norm v <> 0) by (intros E; apply N; rewrite E; ring).
    assert (N2 : np.linalg.norm w <> 0) by (intros E; apply N; rewrite E; ring).
    field; repeat split; lra.
Qed.

Lemma scaling_witness :
  exists b',
    compute_advanced path_features.angle_between (PyDataFrame (scaled 10 square)) =
    Ok b' /\
    radius b' = map (Rmult 10) (radius square_bundle) /\
    center_angles b' = center_angles square_bundle /\
    area_cov b' = 10 * 10 * area_cov square_bundle /\
    area_rec b' = 10 * 10 * area_rec square_bundle /\
    abs_distance b' = 10 * abs_distance square_bundle.
Proof.
  apply (scaling path_features.angle_between 10 square square_bundle).
  - lra.
  - intros v w; apply angle_between_smul; lra.
  - exact square_computes.
Defined.

(** ** Which calls return and which raise *)

Lemma mapM_Ok_iff {A B : Type} (f : A -> result B) (l : list A) (d : A) :
  (exists bs, mapM f l = Ok bs) <->
  (forall i, (i < List.length l)%nat -> exists b, f (nth i l d) = Ok b).
Proof.
  split.
  - intros (bs & H) i Hi.
    destruct (f d) as [b0 | e0] eqn:E.
    + exists (nth i bs b0); apply mapM_nth; assumption.
    + revert bs i H Hi; induction l as [| a t IH]; simpl; intros bs i H Hi; [lia |].
      apply bind_Ok in H as (b & Hb & H).
      apply bind_Ok in H as (bs' & Ht & H).
      destruct i as [| i]; [exists b; assumption |].
      apply (IH bs' i Ht); lia.
  - intros H; apply mapM_total; intros a Ha.
    destruct (In_nth l a d Ha) as (i & Hi & <-); auto.
Qed.

Lemma mapM_Raise_iff {A B : Type} (f : A -> result B) (l : list A) (d : A) (e : exn) :
  mapM f l = Raise e <->
  exists i, (i < List.length l)%nat /\ f (nth i l d) = Raise e /\
            forall j, (j < i)%nat -> exists b, f (nth j l d) = Ok b.
Proof.
  split.
  - revert e; induction l as [| a t IH]; intros e H; simpl in H; [discriminate |].
    destruct (f a) as [b | e1] eqn:Ha; simpl in H.
    + destruct (mapM f t) as [bs | e2]; simpl in H; [discriminate |].
      inversion H; subst e2.
      destruct (IH e eq_refl) as (i & Hi & He & Hlt).
      exists (S i); simpl; repeat split; [lia | assumption |].
      intros [| j] Hj; [exists b; assumption | apply Hlt; lia].
    + inversion H; subst e1; exists 0%nat; simpl; repeat split;
        [lia | assumption | intros j Hj; lia].
  - revert e; induction l as [| a t IH]; intros e (i & Hi & He & Hlt);
      simpl in *; [lia |].
    destruct i as [| i]; [rewrite He; reflexivity |].
    destruct (Hlt 0%nat) as (b & Hb); [lia |]; rewrite Hb; simpl.
    rewrite (IH e); [reflexivity |].
    exists i; repeat split; [lia | assumption |].
    intros j Hj; apply (Hlt (S j)); lia.
Qed.

Lemma adjacent_vectors_nth (df : DataFrame) (c : vec) (i : nat) :
  (S i < len df)%nat ->
  nth i (zip (tl (radius_vectors df c)) (removelast (radius_vectors df c)))
      (vsub (0, 0) c, vsub (0, 0) c) =
  (vsub (nth (S i) (rows df) (0, 0)) c, vsub (nth i (rows df) (0, 0)) c).
Proof.
  intros Hi; rewrite adjacent_nth by (rewrite radius_vectors_length; assumption).
  rewrite !radius_vectors_nth; reflexivity.
Qed.

(** X3.  When the call returns: for any angle helper and any table with
    distinct column names, [compute_advanced] returns a bundle exactly when
    the table has columns x and y and at least three rows, y is the column
    right after x (so that the label slice from x to y selects two columns),
    and the helper returns an angle for the radius vectors of every pair of
    rows i + 1 and i. *)
Theorem returns_iff (ab : vec -> vec -> result R) (df : DataFrame) :
  NoDup (keys df) ->
  ((exists b, compute_advanced ab (PyDataFrame df) = Ok b) <->
   (In "x"%string (keys df) /\ In "y"%string (keys df) /\ (3 <= len df)%nat /\
    (exists pre post, keys df = pre ++ "x"%string :: "y"%string :: post) /\
    exists ep, edge_points df = Ok ep /\
      forall i, (S i < len df)%nat ->
        exists theta,
          ab (vsub (nth (S i) (rows df) (0, 0)) (center_of ep))
             (vsub (nth i (rows df) (0, 0)) (center_of ep)) = Ok theta)).
Proof.
  intros Hnd; split.
  - intros (b & H).
    pose proof (compute_advanced_Ok_sliced ab df b H) as Hs.
    destruct (compute_advanced_Ok ab df b H) as ([Hk Hlen] & ep & Hep & _).
    apply issuperset_xy in Hk as [Hx Hy].
    apply (slice_xy_adjacent _ Hnd Hx Hy) in Hs.
    repeat (split; [assumption |]).
    exists ep; split; [assumption |]; intros i Hi.
    exists (nth i (center_angles b) 0); apply center_angles_nth; assumption.
  - intros (Hx & Hy & Hlen & Hadj & ep & Hep & Hall).
    assert (Hs : sliced df) by (apply (slice_xy_adjacent _ Hnd Hx Hy); assumption).
    assert (Hv : valid df) by (split; [apply issuperset_xy; auto | assumption]).
    destruct (compute_advanced_valid ab df Hv Hs) as (ep' & Hep' & Heq).
    rewrite Hep in Hep'; inversion Hep'; subst ep'; rewrite Heq; clear Heq Hep'.
    unfold angle_calls.
    destruct (proj2 (mapM_Ok_iff (fun '(v1, v2) => ab v1 v2)
                       (zip (tl (radius_vectors df (center_of ep)))
                            (removelast (radius_vectors df (center_of ep))))
                       (vsub (0, 0) (center_of ep), vsub (0, 0) (center_of ep))))
      as (angles & Hang).
    + intros i Hi; rewrite adjacent_length, radius_vectors_length in Hi.
      rewrite adjacent_vectors_nth by lia; apply Hall; lia.
    + rewrite Hang; eexists; reflexivity.
Qed.

Lemma square_keys_NoDup : NoDup (keys square).
Proof.
  repeat constructor; simpl; intros H; repeat destruct H as [H | H];
    try discriminate; assumption.
Qed.

Lemma returns_iff_witness :
  In "x"%string (keys square) /\ In "y"%string (keys square) /\
  (3 <= len square)%nat /\
  exists pre post, keys square = pre ++ "x"%string :: "y"%string :: post.
Proof.
  destruct (proj1 (returns_iff path_features.angle_between square square_keys_NoDup)
                  (ex_intro _ square_bundle square_computes))
    as (Hx & Hy & Hl & Hs & _).
  repeat split; assumption.
Defined.

Lemma raises_cases (ab : vec -> vec -> result R) (df : DataFrame) (e : exn) :
  (compute_advanced ab (PyDataFrame df) = Raise e <->
   (~ (In "x"%string (keys df) /\ In "y"%string (keys df)) /\ e = keys_error) \/
   (In "x"%string (keys df) /\ In "y"%string (keys df) /\
    (len df <= 2)%nat /\ e = rows_error) \/
   (valid df /\ ~ sliced df /\ e = slice_error) \/
   (valid df /\ sliced df /\
    exists ep i, edge_points df = Ok ep /\ (S i < len df)%nat /\
      ab (vsub (nth (S i) (rows df) (0, 0)) (center_of ep))
         (vsub (nth i (rows df) (0, 0)) (center_of ep)) = Raise e /\
      forall j, (j < i)%nat ->
        exists theta,
          ab (vsub (nth (S j) (rows df) (0, 0)) (center_of ep))
             (vsub (nth j (rows df) (0, 0)) (center_of ep)) = Ok theta)).
Proof.
  destruct (issuperset (keys df) ["x"; "y"]%string) eqn:Hs.
  - pose proof (proj1 (issuperset_xy _) Hs) as [Hx Hy].
    destruct (le_lt_dec (len df) 2) as [Hle | Hgt].
    + assert (Hc : compute_advanced ab (PyDataFrame df) = Raise rows_error).
      { unfold compute_advanced; rewrite Hs; simpl.
        replace (len df <=? 2)%nat with true
          by (symmetry; apply Nat.leb_le; assumption).
        reflexivity. }
      rewrite Hc; split.
      * intros E; inversion E; right; left; auto.
      * intros [(Hn & _) | [(_ & _ & _ & ->) | [((_ & Hl) & _) | ((_ & Hl) & _)]]];
          [tauto | reflexivity | lia | lia].
    + assert (Hv : valid df) by (split; [assumption | lia]).
      destruct (sliced_dec df) as [Hsl | Hnsl].
      2: { rewrite (compute_advanced_unsliced ab df Hv Hnsl); split.
           - intros E; inversion E; right; right; left; auto.
           - intros [(Hn & _) | [(_ & _ & Hl & _) | [(_ & _ & ->) | (_ & Hsl & _)]]];
               [tauto | lia | reflexivity | contradiction]. }
      destruct (compute_advanced_valid ab df Hv Hsl) as (ep & Hep & Heq).
      rewrite Heq; clear Heq; unfold angle_calls.
      set (d := (vsub (0, 0) (center_of ep), vsub (0, 0) (center_of ep))).
      pose proof (mapM_Raise_iff (fun '(v1, v2) => ab v1 v2)
                    (zip (tl (radius_vectors df (center_of ep)))
                         (removelast (radius_vectors df (center_of ep)))) d e) as Hm.
      rewrite adjacent_length, radius_vectors_length in Hm.
      split.
      * intros E; right; right; right; split; [assumption |]; split; [assumption |].
        destruct (mapM _ _) as [angles | e'] eqn:Hmap; [discriminate |].
        inversion E; subst e'.
        destruct (proj1 Hm eq_refl) as (i & Hi & He & Hlt).
        exists ep, i; split; [assumption |]; split; [lia |].
        unfold d in He; rewrite adjacent_vectors_nth in He by lia.
        split; [assumption |]; intros j Hj.
        specialize (Hlt j Hj); unfold d in Hlt.
        rewrite adjacent_vectors_nth in Hlt by lia; assumption.
      * intros [(Hn & _) | [(_ & _ & Hl & _) | [(_ & Hnsl & _) |
                 (_ & _ & ep' & i & Hep' & Hi & He & Hlt)]]];
          [tauto | lia | contradiction |].
        rewrite Hep in Hep'; inversion Hep'; subst ep'.
        rewrite (proj2 Hm); [reflexivity |].
        exists i; split; [lia |]; unfold d.
        rewrite adjacent_vectors_nth by lia; split; [assumption |].
        intros j Hj; rewrite adjacent_vectors_nth by lia; auto.
  - assert (Hc : compute_advanced ab (PyDataFrame df) = Raise keys_error)
      by (unfold compute_advanced; rewrite Hs; reflexivity).
    assert (Hn : ~ (In "x"%string (keys df) /\ In "y"%string (keys df))).
    { intros H; apply issuperset_xy in H; congruence. }
    rewrite Hc; split.
    + intros E; inversion E; left; auto.
    + intros [(_ & ->) | [(Hx & Hy & _) | [((Hk & _) & _) | ((Hk & _) & _)]]];
        [reflexivity | tauto | congruence | congruence].
Qed.

(** X4.  Which exception: for any angle helper and any DataFrame with
    distinct column names, the call raises [e] exactly in one of four cases,
    tried in this order: a column x or y is missing and [e] is the key
    error; both columns are there, the table has two or fewer rows (or none)
    and [e] is the row-count error; the table is valid, y is not the column
    right after x, so that the label slice from x to y does not select two
    columns, and [e] is numpy's exception for the subtraction of the centre;
    y is the column right after x and [e] is what the helper raised for the first pair of rows i + 1 and i on which it
    fails.  In particular the minimum, maximum and first/last row lookups
    never raise. *)
Theorem raises_iff (ab : vec -> vec -> result R) (df : DataFrame) (e : exn) :
  NoDup (keys df) ->
  (compute_advanced ab (PyDataFrame df) = Raise e <->
   (~ (In "x"%string (keys df) /\ In "y"%string (keys df)) /\ e = keys_error) \/
   (In "x"%string (keys df) /\ In "y"%string (keys df) /\
    (len df <= 2)%nat /\ e = rows_error) \/
   (valid df /\
    ~ (exists pre post, keys df = pre ++ "x"%string :: "y"%string :: post) /\
    e = slice_error) \/
   (valid df /\
    (exists pre post, keys df = pre ++ "x"%string :: "y"%string :: post) /\
    exists ep i, edge_points df = Ok ep /\ (S i < len df)%nat /\
      ab (vsub (nth (S i) (rows df) (0, 0)) (center_of ep))
         (vsub (nth i (rows df) (0, 0)) (center_of ep)) = Raise e /\
      forall j, (j < i)%nat ->
        exists theta,
          ab (vsub (nth (S j) (rows df) (0, 0)) (center_of ep))
             (vsub (nth j (rows df) (0, 0)) (center_of ep)) = Ok theta)).
Proof.
  intros Hnd.
  assert (Hadj : valid df ->
                 (sliced df <->
                  exists pre post, keys df = pre ++ "x"%string :: "y"%string :: post)).
  { intros [Hk _]; apply issuperset_xy in Hk as [Hx Hy].
    apply slice_xy_adjacent; assumption. }
  rewrite raises_cases; split.
  - intros [H | [H | [(Hv & Hn & He) | (Hv & Hs & H)]]]; auto.
    + right; right; left; split; [assumption | split; [| assumption]].
      intros Ha; apply Hn, (Hadj Hv); assumption.
    + right; right; right; split; [assumption | split; [| assumption]].
      apply (Hadj Hv); assumption.
  - intros [H | [H | [(Hv & Hn & He) | (Hv & Hs & H)]]]; auto.
    + right; right; left; split; [assumption | split; [| assumption]].
      intros Ha; apply Hn, (Hadj Hv); assumption.
    + right; right; right; split; [assumption | split; [| assumption]].
      apply (Hadj Hv); assumption.
Qed.

Lemma raises_iff_witness :
  compute_advanced path_features.angle_between
    (PyDataFrame (mkDataFrame ["x"; "z"; "y"]%string [(0, 0); (2, 0); (2, 2)])) =
  Raise slice_error.
Proof.
  apply (raises_iff path_features.angle_between).
  - repeat constructor; simpl; intros H; repeat destruct H as [H | H];
      try discriminate; assumption.
  - right; right; left; split; [| split].
    + split; [reflexivity | unfold len; simpl; lia].
    + intros (pre & post & E); simpl in E.
      destruct pre as [| a [| b [| c pre]]]; simpl in E; try discriminate.
      destruct pre; discriminate.
    + reflexivity.
Defined.

(** ** The bounding box as a bound *)

Lemma rows_in_box (df : DataFrame) (ep : EdgePoints) (p : vec) :
  edge_points df = Ok ep -> In p (rows df) ->
  xmin ep <= fst p <= xmax ep /\ ymin ep <= snd p <= ymax ep.
Proof.
  intros Hep Hin.
  destruct (edge_points_extrema df ep Hep) as ((_ & H1) & (_ & H2) & (_ & H3) & (_ & H4)).
  assert (Hx : In (fst p) (col_x df)) by (apply in_map; assumption).
  assert (Hy : In (snd p) (col_y df)) by (apply in_map; assumption).
  auto.
Qed.

Lemma euclid_sq (p q : vec) :
  euclid p q * euclid p q = (fst p - fst q) ^ 2 + (snd p - snd q) ^ 2.
Proof.
  unfold euclid; apply sqrt_sqrt.
  apply Rplus_le_le_0_compat; apply pow2_ge_0.
Qed.

Lemma diagonal_sq (ep : EdgePoints) :
  diagonal ep * diagonal ep = width ep ^ 2 + height ep ^ 2.
Proof.
  unfold diagonal; apply sqrt_sqrt.
  apply Rplus_le_le_0_compat; apply pow2_ge_0.
Qed.

Lemma diagonal_nonneg (ep : EdgePoints) : 0 <= diagonal ep.
Proof. apply sqrt_pos. Qed.

(** Comparing non-negative numbers through their squares. *)
Lemma le_of_sq (a b : R) : 0 <= a -> 0 <= b -> a * a <= b * b -> a <= b.
Proof.
  intros Ha Hb H; apply Rsqr_incr_0_var; [unfold Rsqr; assumption | assumption].
Qed.

Lemma euclid_zero_iff (p q : vec) : euclid p q = 0 <-> p = q.
Proof.
  split.
  - intros H; pose proof (euclid_sq p q) as Hs; rewrite H in Hs.
    destruct p as [a b], q as [c d]; simpl in *.
    set (u := a - c) in *; set (v := b - d) in *.
    assert (Hu : u = 0) by nra; assert (Hv : v = 0) by nra.
    unfold u, v in *; f_equal; lra.
  - intros ->; unfold euclid.
    replace ((fst q - fst q) ^ 2 + (snd q - snd q) ^ 2) with 0 by ring.
    apply sqrt_0.
Qed.

Lemma radius_in_box (df : DataFrame) (ep : EdgePoints) (p : vec) :
  edge_points df = Ok ep -> In p (rows df) ->
  euclid p (center_of ep) <= diagonal ep / 2.
Proof.
  intros Hep Hin.
  destruct (rows_in_box df ep p Hep Hin) as [Hx Hy].
  pose proof (diagonal_nonneg ep) as Hd; pose proof (diagonal_sq ep) as Hds.
  apply le_of_sq; [apply euclid_nonneg | lra |].
  rewrite euclid_sq; unfold center_of, width, height in *; simpl in *.
  nra.
Qed.

Lemma distances_nth (l : list vec) (c : vec) (i : nat) :
  (i < List.length l)%nat ->
  nth i (map (fun p => euclid p c) l) 0 = euclid (nth i l (0, 0)) c.
Proof.
  intros Hi.
  rewrite (nth_indep _ 0 (euclid (0, 0) c)) by (rewrite length_map; assumption).
  apply (map_nth (fun p => euclid p c)).
Qed.

(** X5.  Radius and bounding box: in a returned bundle no radius exceeds
    half the diagonal of the bounding box, some radius is at least half its
    width and some radius is at least half its height; a radius is 0 exactly
    when its row is the centre of the box. *)
Theorem radius_bounds (ab : vec -> vec -> result R) (df : DataFrame)
        (b : FeatureBundle) :
  compute_advanced ab (PyDataFrame df) = Ok b ->
  exists ep, edge_points df = Ok ep /\
    Forall (fun r => r <= diagonal ep / 2) (radius b) /\
    Exists (fun r => width ep / 2 <= r) (radius b) /\
    Exists (fun r => height ep / 2 <= r) (radius b) /\
    forall i, (i < len df)%nat ->
      (nth i (radius b) 0 = 0 <-> nth i (rows df) (0, 0) = center_of ep).
Proof.
  intros H.
  destruct (compute_advanced_Ok ab df b H) as (Hv & ep & Hep & _ & Hrad & _).
  assert (Hr : radius b = map (fun p => euclid p (center_of ep)) (rows df)).
  { rewrite Hrad; unfold radius_vectors; rewrite map_map; reflexivity. }
  destruct (edge_points_extrema df ep Hep) as ((I1 & L1) & (I2 & L2) & (I3 & L3) & (I4 & L4)).
  exists ep; split; [assumption |]; rewrite Hr; repeat split.
  - apply Forall_forall; intros r Hin; apply in_map_iff in Hin as (p & <- & Hp).
    apply (radius_in_box df); assumption.
  - unfold col_x in I1; apply in_map_iff in I1 as (p & Hp & Hin).
    apply Exists_exists; exists (euclid p (center_of ep)); split.
    + apply (in_map (fun q => euclid q (center_of ep))); assumption.
    + pose proof (L2 _ (in_map fst _ _ Hin)) as Hle.
      apply le_of_sq; [unfold width; lra | apply euclid_nonneg |].
      rewrite euclid_sq; unfold center_of; cbn [fst snd]; rewrite Hp.
      replace ((xmin ep - (xmin ep + xmax ep) / 2) ^ 2)
        with (width ep / 2 * (width ep / 2)) by (unfold width; field).
      pose proof (pow2_ge_0 (snd p - (ymin ep + ymax ep) / 2)); lra.
  - unfold col_y in I3; apply in_map_iff in I3 as (p & Hp & Hin).
    apply Exists_exists; exists (euclid p (center_of ep)); split.
    + apply (in_map (fun q => euclid q (center_of ep))); assumption.
    + pose proof (L4 _ (in_map snd _ _ Hin)) as Hle.
      apply le_of_sq; [unfold height; lra | apply euclid_nonneg |].
      rewrite euclid_sq; unfold center_of; cbn [fst snd]; rewrite Hp.
      replace ((ymin ep - (ymin ep + ymax ep) / 2) ^ 2)
        with (height ep / 2 * (height ep / 2)) by (unfold height; field).
      pose proof (pow2_ge_0 (fst p - (xmin ep + xmax ep) / 2)); lra.
  - intros E; apply euclid_zero_iff.
    rewrite <- (distances_nth _ _ _ H0); assumption.
  - intros E; rewrite (distances_nth _ _ _ H0).
    apply euclid_zero_iff; assumption.
Qed.

Lemma radius_bounds_witness :
  exists ep, edge_points square = Ok ep /\
    Forall (fun r => r <= diagonal ep / 2) (radius square_bundle) /\
    Exists (fun r => width ep / 2 <= r) (radius square_bundle).
Proof.
  destruct (radius_bounds path_features.angle_between square square_bundle
              square_computes) as (ep & Hep & H1 & H2 & _).
  exists ep; auto.
Defined.

Lemma hd_In {A : Type} (l : list A) (d : A) : l <> [] -> In (hd d l) l.
Proof. destruct l; [congruence | simpl; auto]. Qed.

Lemma last_In {A : Type} (l : list A) (d : A) : l <> [] -> In (last l d) l.
Proof.
  intros Hne; rewrite (app_removelast_last d Hne) at 2.
  apply in_or_app; right; simpl; auto.
Qed.

(** Cauchy-Schwarz and the triangle inequality in the plane. *)
Lemma dot_le_norms (v w : vec) :
  - (np.linalg.norm v * np.linalg.norm w) <= np.dot v w <=
  np.linalg.norm v * np.linalg.norm w.
Proof.
  pose proof (norm_nonneg v) as P1; pose proof (norm_nonneg w) as P2.
  pose proof (norm_sq v) as S1; pose proof (norm_sq w) as S2.
  set (n1 := np.linalg.norm v) in *; set (n2 := np.linalg.norm w) in *.
  assert (Hcs : np.dot v w * np.dot v w <= (n1 * n2) * (n1 * n2)).
  { replace ((n1 * n2) * (n1 * n2)) with ((n1 * n1) * (n2 * n2)) by ring.
    rewrite S1, S2; unfold np.dot; destruct v as [a b], w as [c d]; simpl.
    pose proof (Rle_0_sqr (a * d - b * c)) as Hsq; unfold Rsqr in Hsq.
    assert (E : (a * (a * 1) + b * (b * 1)) * (c * (c * 1) + d * (d * 1))
                - (a * c + b * d) * (a * c + b * d)
                = (a * d - b * c) * (a * d - b * c)) by ring.
    lra. }
  assert (Hp : 0 <= n1 * n2) by (apply Rmult_le_pos; assumption).
  split.
  - apply Ropp_le_cancel; rewrite Ropp_involutive.
    destruct (Rle_dec 0 (- np.dot v w)) as [Hd | Hd]; [| lra].
    apply le_of_sq; [assumption | assumption |].
    replace (- np.dot v w * - np.dot v w) with (np.dot v w * np.dot v w) by ring.
    assumption.
  - destruct (Rle_dec 0 (np.dot v w)) as [Hd | Hd]; [| lra].
    apply le_of_sq; assumption.
Qed.

Lemma euclid_triangle (p q c : vec) :
  euclid p q <= euclid p c + euclid q c.
Proof.
  pose proof (euclid_nonneg p c) as P1; pose proof (euclid_nonneg q c) as P2.
  apply le_of_sq; [apply euclid_nonneg | lra |].
  pose proof (dot_le_norms (vsub p c) (vsub q c)) as [Hlo _].
  pose proof (euclid_sq p q) as Spq; pose proof (euclid_sq p c) as Spc.
  pose proof (euclid_sq q c) as Sqc.
  change (np.linalg.norm (vsub p c)) with (euclid p c) in Hlo.
  change (np.linalg.norm (vsub q c)) with (euclid q c) in Hlo.
  unfold np.dot, vsub in Hlo; simpl in Hlo.
  assert (E : (fst p - fst q) ^ 2 + (snd p - snd q) ^ 2 =
              ((fst p - fst c) ^ 2 + (snd p - snd c) ^ 2) +
              ((fst q - fst c) ^ 2 + (snd q - snd c) ^ 2) -
              2 * ((fst p - fst c) * (fst q - fst c) +
                   (snd p - snd c) * (snd q - snd c))) by ring.
  rewrite Spq, E, <- Spc, <- Sqc; lra.
Qed.

(** X6.  Absolute distance: in a returned bundle [abs_distance] is at most
    the diagonal of the bounding box, at most the sum of the first and the
    last radius, and it is 0 exactly when the first and the last row are the
    same point. *)
Theorem abs_distance_bounds (ab : vec -> vec -> result R) (df : DataFrame)
        (b : FeatureBundle) :
  compute_advanced ab (PyDataFrame df) = Ok b ->
  exists ep, edge_points df = Ok ep /\
    abs_distance b <= diagonal ep /\
    abs_distance b <= nth 0 (radius b) 0 + nth (len df - 1) (radius b) 0 /\
    (abs_distance b = 0 <-> hd (0, 0) (rows df) = last (rows df) (0, 0)).
Proof.
  intros H.
  destruct (compute_advanced_Ok ab df b H)
    as (Hv & ep & Hep & _ & Hrad & _ & _ & Hd).
  pose proof (valid_rows_nonempty df Hv) as Hne.
  assert (Hlen : (3 <= len df)%nat) by (destruct Hv; assumption).
  assert (Hr : radius b = map (fun p => euclid p (center_of ep)) (rows df)).
  { rewrite Hrad; unfold radius_vectors; rewrite map_map; reflexivity. }
  exists ep; split; [assumption |]; rewrite Hd; split; [| split].
  - destruct (rows_in_box df ep _ Hep (hd_In (rows df) (0, 0) Hne)) as [Hx Hy].
    destruct (rows_in_box df ep _ Hep (last_In (rows df) (0, 0) Hne)) as [Hx' Hy'].
    pose proof (diagonal_sq ep) as Hds.
    apply le_of_sq; [apply euclid_nonneg | apply diagonal_nonneg |].
    rewrite euclid_sq, Hds; unfold width, height.
    set (a := fst (last (rows df) (0, 0))) in *.
    set (a' := fst (hd (0, 0) (rows df))) in *.
    set (c := snd (last (rows df) (0, 0))) in *.
    set (c' := snd (hd (0, 0) (rows df))) in *.
    change (xmin ep <= a' <= xmax ep) in Hx.
    change (ymin ep <= c' <= ymax ep) in Hy.
    assert (0 <= (xmax ep - xmin ep - (a - a')) * (xmax ep - xmin ep + (a - a')))
      by (apply Rmult_le_pos; lra).
    assert (0 <= (ymax ep - ymin ep - (c - c')) * (ymax ep - ymin ep + (c - c')))
      by (apply Rmult_le_pos; lra).
    simpl; nra.
  - rewrite Hr, !distances_nth by (fold (len df); lia).
    unfold len; rewrite <- last_nth.
    replace (nth 0 (rows df) (0, 0)) with (hd (0, 0) (rows df))
      by (destruct (rows df); reflexivity).
    rewrite Rplus_comm; apply euclid_triangle.
  - rewrite euclid_zero_iff; split; intros E; symmetry; assumption.
Qed.

Lemma abs_distance_bounds_witness :
  exists ep, edge_points square = Ok ep /\
    abs_distance square_bundle <= diagonal ep /\
    abs_distance square_bundle <=
    nth 0 (radius square_bundle) 0 + nth (len square - 1) (radius square_bundle) 0.
Proof.
  destruct (abs_distance_bounds path_features.angle_between square square_bundle
              square_computes) as (ep & Hep & H1 & H2 & _).
  exists ep; auto.
Defined.

(** X7.  Flat rectangle: in a returned bundle [area_rec] is 0 exactly when
    all rows share one x value or all rows share one y value; otherwise it
    is positive. *)
Theorem area_rec_zero_iff (ab : vec -> vec -> result R) (df : DataFrame)
        (b : FeatureBundle) :
  compute_advanced ab (PyDataFrame df) = Ok b ->
  (area_rec b = 0 <->
   (exists c, forall p, In p (rows df) -> fst p = c) \/
   (exists c, forall p, In p (rows df) -> snd p = c)) /\
  (area_rec b <> 0 -> 0 < area_rec b).
Proof.
  intros H.
  destruct (compute_advanced_Ok ab df b H)
    as (_ & ep & Hep & _ & _ & _ & Hrec & _).
  destruct (edge_points_extrema df ep Hep) as (H1 & H2 & H3 & H4).
  pose proof (is_min_le_is_max _ _ _ H1 H2) as Hx.
  pose proof (is_min_le_is_max _ _ _ H3 H4) as Hy.
  split; [split |].
  - intros E; rewrite Hrec in E.
    apply Rmult_integral in E as [E | E]; [left | right].
    + exists (xmin ep); intros p Hp.
      destruct (rows_in_box df ep p Hep Hp) as [Hb _]; lra.
    + exists (ymin ep); intros p Hp.
      destruct (rows_in_box df ep p Hep Hp) as [_ Hb]; lra.
  - intros [(c & Hc) | (c & Hc)]; rewrite Hrec.
    + rewrite (is_min_max_const (col_x df) _ _ c H1 H2); [ring |].
      intros x Hin; unfold col_x in Hin; apply in_map_iff in Hin as (p & <- & Hp); auto.
    + rewrite (is_min_max_const (col_y df) _ _ c H3 H4); [ring |].
      intros y Hin; unfold col_y in Hin; apply in_map_iff in Hin as (p & <- & Hp); auto.
  - intros Hn; rewrite Hrec in *.
    assert (0 <= (xmax ep - xmin ep) * (ymax ep - ymin ep))
      by (apply Rmult_le_pos; lra).
    lra.
Qed.

Lemma area_rec_zero_iff_witness : 0 < area_rec square_bundle.
Proof.
  destruct (area_rec_zero_iff path_features.angle_between square square_bundle
              square_computes) as (_ & H).
  apply H; simpl; lra.
Defined.

(** ** A bound on the covered area *)

Lemma sum_upto_bounds (f : nat -> R) (n : nat) (c : R) :
  (forall i, (i < n)%nat -> - c <= f i <= c) ->
  - (INR n * c) <= sum_upto f n <= INR n * c.
Proof.
  induction n as [| n IH]; intros H.
  - simpl; lra.
  - rewrite S_INR; simpl sum_upto.
    assert (Hn : - (INR n * c) <= sum_upto f n <= INR n * c)
      by (apply IH; intros; apply H; lia).
    assert (Hf : - c <= f n <= c) by (apply H; lia).
    lra.
Qed.

Lemma radius_nth_le (ab : vec -> vec -> result R) (df : DataFrame)
      (b : FeatureBundle) (ep : EdgePoints) (i : nat) :
  compute_advanced ab (PyDataFrame df) = Ok b -> edge_points df = Ok ep ->
  nth i (radius b) 0 <= diagonal ep / 2.
Proof.
  intros H Hep.
  destruct (compute_advanced_Ok ab df b H) as (_ & ep' & Hep' & _ & Hrad & _).
  rewrite Hep in Hep'; inversion Hep'; subst ep'.
  destruct (nth_in_or_default i (radius b) 0) as [Hin | ->].
  - rewrite Hrad in Hin at 2; unfold radius_vectors in Hin; rewrite map_map in Hin.
    apply in_map_iff in Hin as (p & <- & Hp).
    apply (radius_in_box df ep p Hep Hp).
  - pose proof (diagonal_nonneg ep); lra.
Qed.

(** X8.  Covered area and bounding box: whatever angles the helper
    returns, the absolute value of [area_cov] in a returned bundle is at
    most (N - 1) times one eighth of the squared diagonal of the bounding
    box. *)
Theorem area_cov_bound (ab : vec -> vec -> result R) (df : DataFrame)
        (b : FeatureBundle) :
  compute_advanced ab (PyDataFrame df) = Ok b ->
  exists ep, edge_points df = Ok ep /\
    Rabs (area_cov b) <= INR (len df - 1) * (diagonal ep * diagonal ep / 8).
Proof.
  intros H.
  destruct (compute_advanced_Ok ab df b H) as (_ & ep & Hep & _).
  exists ep; split; [assumption |].
  rewrite (area_cov_sum_upto _ _ _ H).
  apply Rabs_le, sum_upto_bounds; intros i _.
  pose proof (radius_nth_nonneg _ df b (S i) H) as P1.
  pose proof (radius_nth_nonneg _ df b i H) as P0.
  pose proof (radius_nth_le _ df b ep (S i) H Hep) as U1.
  pose proof (radius_nth_le _ df b ep i H Hep) as U0.
  pose proof (SIN_bound (nth i (center_angles b) 0)) as [Slo Shi].
  set (r1 := nth (S i) (radius b) 0) in *; set (r0 := nth i (radius b) 0) in *.
  set (s := sin (nth i (center_angles b) 0)) in *; set (h := diagonal ep / 2) in *.
  assert (Hp : 0 <= r1 * r0) by (apply Rmult_le_pos; assumption).
  assert (Hq : r1 * r0 <= h * h) by (apply Rmult_le_compat; assumption).
  assert (Hs1 : 0 <= (r1 * r0) * (1 - s)) by (apply Rmult_le_pos; lra).
  assert (Hs2 : 0 <= (r1 * r0) * (1 + s)) by (apply Rmult_le_pos; lra).
  replace (diagonal ep * diagonal ep / 8) with (h * h / 2) by (unfold h; field).
  split; lra.
Qed.

Lemma area_cov_bound_witness :
  exists ep, edge_points square = Ok ep /\
    Rabs (area_cov square_bundle) <=
    INR (len square - 1) * (diagonal ep * diagonal ep / 8).
Proof.
  exact (area_cov_bound path_features.angle_between square square_bundle
           square_computes).
Defined.

(** ** Reordering the rows *)

Lemma is_min_Permutation (l l' : list R) (m : R) :
  Permutation l l' -> is_min m l -> is_min m l'.
Proof.
  intros Hp [Hin Hle]; split; [apply (Permutation_in _ Hp Hin) |].
  intros x Hx; apply Hle, (Permutation_in _ (Permutation_sym Hp) Hx).
Qed.

Lemma is_max_Permutation (l l' : list R) (m : R) :
  Permutation l l' -> is_max m l -> is_max m l'.
Proof.
  intros Hp [Hin Hle]; split; [apply (Permutation_in _ Hp Hin) |].
  intros x Hx; apply Hle, (Permutation_in _ (Permutation_sym Hp) Hx).
Qed.

Lemma edge_points_Permutation (df df' : DataFrame) (ep ep' : EdgePoints) :
  Permutation (rows df) (rows df') ->
  edge_points df = Ok ep -> edge_points df' = Ok ep' -> ep' = ep.
Proof.
  intros Hp Hep Hep'.
  destruct (edge_points_extrema df ep Hep) as (H1 & H2 & H3 & H4).
  destruct (edge_points_extrema df' ep' Hep') as (H1' & H2' & H3' & H4').
  assert (Px : Permutation (col_x df) (col_x df')) by (apply Permutation_map; assumption).
  assert (Py : Permutation (col_y df) (col_y df')) by (apply Permutation_map; assumption).
  destruct ep as [a b c d], ep' as [a' b' c' d']; simpl in *; f_equal.
  - apply (is_min_unique _ _ _ H1'), (is_min_Permutation _ _ _ Px H1).
  - apply (is_max_unique _ _ _ H2'), (is_max_Permutation _ _ _ Px H2).
  - apply (is_min_unique _ _ _ H3'), (is_min_Permutation _ _ _ Py H3).
  - apply (is_max_unique _ _ _ H4'), (is_max_Permutation _ _ _ Py H4).
Qed.

(** X9.  Order of the rows: if two tables hold the same rows in different
    orders and [compute_advanced] returns for both, the two calls used the
    same bounding box, the two bundles have the same [area_rec], and the
    radii of one are a rearrangement of the radii of the other. *)
Theorem rows_reordered (ab : vec -> vec -> result R) (df df' : DataFrame)
        (b b' : FeatureBundle) :
  Permutation (rows df) (rows df') ->
  compute_advanced ab (PyDataFrame df) = Ok b ->
  compute_advanced ab (PyDataFrame df') = Ok b' ->
  edge_points df' = edge_points df /\
  area_rec b' = area_rec b /\
  Permutation (radius b) (radius b').
Proof.
  intros Hp H H'.
  destruct (compute_advanced_Ok ab df b H)
    as (_ & ep & Hep & _ & Hrad & _ & Hrec & _).
  destruct (compute_advanced_Ok ab df' b' H')
    as (_ & ep' & Hep' & _ & Hrad' & _ & Hrec' & _).
  pose proof (edge_points_Permutation df df' ep ep' Hp Hep Hep') as ->.
  split; [congruence |]; split; [congruence |].
  rewrite Hrad, Hrad'; unfold radius_vectors.
  apply Permutation_map, Permutation_map; assumption.
Qed.

Lemma square_turned_returns :
  exists b', compute_advanced path_features.angle_between
               (PyDataFrame square_turned) = Ok b'.
Proof.
  apply compute_advanced_returns.
  - split; [reflexivity | unfold len; simpl; lia].
  - reflexivity.
Qed.

Lemma rows_reordered_witness :
  exists b',
    compute_advanced path_features.angle_between (PyDataFrame square_turned) = Ok b' /\
    area_rec b' = area_rec square_bundle /\
    Permutation (radius square_bundle) (radius b').
Proof.
  destruct square_turned_returns as (b' & Hb').
  exists b'; split; [assumption |].
  apply (rows_reordered path_features.angle_between square square_turned
           square_bundle b').
  - apply (Permutation_cons_append [(2, 0); (2, 2); (0, 2)] (0, 0)).
  - exact square_computes.
  - exact Hb'.
Defined.

(** X10.  More rows, larger rectangle: if every row of one table also occurs
    in a second table and [compute_advanced] returns for both, the
    [area_rec] of the first is at most the [area_rec] of the second. *)
Theorem area_rec_monotone (ab : vec -> vec -> result R) (df df' : DataFrame)
        (b b' : FeatureBundle) :
  incl (rows df) (rows df') ->
  compute_advanced ab (PyDataFrame df) = Ok b ->
  compute_advanced ab (PyDataFrame df') = Ok b' ->
  area_rec b <= area_rec b'.
Proof.
  intros Hincl H H'.
  destruct (compute_advanced_Ok ab df b H)
    as (_ & ep & Hep & _ & _ & _ & Hrec & _).
  destruct (compute_advanced_Ok ab df' b' H')
    as (_ & ep' & Hep' & _ & _ & _ & Hrec' & _).
  destruct (edge_points_extrema df ep Hep) as ((I1 & _) & (I2 & _) & (I3 & _) & (I4 & _)).
  destruct (edge_points_extrema df ep Hep) as (M1 & M2 & M3 & M4).
  destruct (edge_points_extrema df' ep' Hep') as ((_ & L1) & (_ & L2) & (_ & L3) & (_ & L4)).
  assert (Hx : incl (col_x df) (col_x df')) by (apply incl_map; assumption).
  assert (Hy : incl (col_y df) (col_y df')) by (apply incl_map; assumption).
  pose proof (L1 _ (Hx _ I1)); pose proof (L2 _ (Hx _ I2)).
  pose proof (L3 _ (Hy _ I3)); pose proof (L4 _ (Hy _ I4)).
  pose proof (is_min_le_is_max _ _ _ M1 M2).
  pose proof (is_min_le_is_max _ _ _ M3 M4).
  rewrite Hrec, Hrec'; apply Rmult_le_compat; lra.
Qed.

Lemma area_rec_monotone_witness :
  exists b',
    compute_advanced path_features.angle_between (PyDataFrame square_turned) = Ok b' /\
    area_rec square_bundle <= area_rec b'.
Proof.
  destruct square_turned_returns as (b' & Hb').
  exists b'; split; [assumption |].
  apply (area_rec_monotone path_features.angle_between square square_turned
           square_bundle b').
  - intros p Hin; simpl in *; tauto.
  - exact square_computes.
  - exact Hb'.
Defined.

(** ** A path that does not move *)

Lemma removelast_repeat {A : Type} (x : A) (n : nat) :
  removelast (repeat x (S n)) = repeat x n.
Proof.
  induction n as [| n IH]; [reflexivity |].
  change (removelast (repeat x (S (S n)))) with (x :: removelast (repeat x (S n))).
  rewrite IH; reflexivity.
Qed.

Lemma tl_repeat {A : Type} (x : A) (n : nat) : tl (repeat x (S n)) = repeat x n.
Proof. reflexivity. Qed.

Lemma combine_repeat {A B : Type} (x : A) (y : B) (n : nat) :
  combine (repeat x n) (repeat y n) = repeat (x, y) n.
Proof. induction n as [| n IH]; simpl; [reflexivity | rewrite IH; reflexivity]. Qed.

Lemma mapM_repeat_Ok {A B : Type} (f : A -> result B) (a : A) (b : B) (n : nat) :
  f a = Ok b -> mapM f (repeat a n) = Ok (repeat b n).
Proof.
  intros H; induction n as [| n IH]; simpl; [reflexivity |].
  rewrite H; simpl; rewrite IH; reflexivity.
Qed.

Lemma mapM_repeat_Raise {A B : Type} (f : A -> result B) (a : A) (e : exn) (n : nat) :
  f a = Raise e -> mapM f (repeat a (S n)) = Raise e.
Proof. intros H; simpl; rewrite H; reflexivity. Qed.

Lemma sum_repeat_0 (n : nat) : sum (repeat 0 n) = 0.
Proof.
  induction n as [| n IH]; [reflexivity |].
  simpl; rewrite sum_cons, IH; lra.
Qed.

Lemma norm_origin : np.linalg.norm (0, 0) = 0.
Proof. apply norm_zero_iff; reflexivity. Qed.

Lemma fold_left_Rmin_repeat (x : R) (n : nat) : fold_left Rmin (repeat x n) x = x.
Proof.
  induction n as [| n IH]; simpl; [reflexivity |].
  unfold Rmin at 2; destruct (Rle_dec x x); assumption.
Qed.

Lemma fold_left_Rmax_repeat (x : R) (n : nat) : fold_left Rmax (repeat x n) x = x.
Proof.
  induction n as [| n IH]; simpl; [reflexivity |].
  unfold Rmax at 2; destruct (Rle_dec x x); assumption.
Qed.

Lemma stationary_vectors (df : DataFrame) (p : vec) (n : nat) :
  rows df = repeat p (S n) ->
  edge_points df = Ok (mkEdgePoints (fst p) (fst p) (snd p) (snd p)) /\
  radius_vectors df (center_of (mkEdgePoints (fst p) (fst p) (snd p) (snd p))) =
  repeat (0, 0) (S n).
Proof.
  intros Hrows; split.
  - unfold edge_points, col_x, col_y; rewrite Hrows, !map_repeat; simpl.
    rewrite !fold_left_Rmin_repeat, !fold_left_Rmax_repeat; reflexivity.
  - unfold radius_vectors; rewrite Hrows, map_repeat; f_equal.
    unfold vsub, center_of; simpl; f_equal; field.
Qed.

(** X11.  A path that does not move: on a valid table all of whose rows are
    the same point and whose label slice selects the two columns, every call
    of the angle helper is made on two zero vectors.  If the helper returns
    an angle for them, the bundle has all radii 0, that angle N - 1 times,
    and [area_cov], [area_rec] and [abs_distance] equal to 0; if the helper
    raises, the call raises the same exception.  When the slice does not
    select two columns the call ends with numpy's exception instead. *)
Theorem stationary_path (ab : vec -> vec -> result R) (df : DataFrame) (p : vec) :
  valid df -> (forall q, In q (rows df) -> q = p) ->
  (sliced df ->
   (forall theta, ab (0, 0) (0, 0) = Ok theta ->
      compute_advanced ab (PyDataFrame df) =
      Ok (mkFeatureBundle (repeat 0 (len df)) (repeat theta (len df - 1)) 0 0 0)) /\
   (forall e, ab (0, 0) (0, 0) = Raise e ->
      compute_advanced ab (PyDataFrame df) = Raise e)) /\
  (~ sliced df -> compute_advanced ab (PyDataFrame df) = Raise slice_error).
Proof.
  intros Hv Hall; split; [| apply compute_advanced_unsliced; assumption].
  intros Hs.
  assert (Hrows : rows df = repeat p (len df)).
  { apply Forall_eq_repeat, Forall_forall; intros q Hq; symmetry; auto. }
  assert (Hlen : (3 <= len df)%nat) by (destruct Hv; assumption).
  destruct (len df) as [| n] eqn:En; [lia |].
  destruct (stationary_vectors df p n Hrows) as (Hep & Hvs).
  destruct (compute_advanced_valid ab df Hv Hs) as (ep & Hep' & Heq).
  rewrite Hep in Hep'; inversion Hep'; subst ep; clear Hep'.
  rewrite Heq, Hvs; clear Heq; unfold angle_calls, zip.
  rewrite removelast_repeat, tl_repeat, combine_repeat, Nat.sub_succ, Nat.sub_0_r.
  destruct n as [| n]; [lia |].
  split.
  - intros theta Hth.
    rewrite (mapM_repeat_Ok (fun '(v1, v2) => ab v1 v2) _ theta) by assumption.
    cbn [bind xmin xmax ymin ymax]; rewrite map_repeat, norm_origin.
    do 2 f_equal.
    + unfold zip3; rewrite removelast_repeat, tl_repeat, !combine_repeat, map_repeat.
      replace (sector (0, 0, theta)) with 0 by (unfold sector; field).
      apply sum_repeat_0.
    + ring.
    + rewrite Hrows, last_default with (d' := p) by discriminate.
      rewrite (hd_default _ (0, 0) p) by discriminate.
      apply euclid_zero_iff.
      pose proof (hd_In (repeat p (S (S n))) p ltac:(discriminate)) as Hh.
      pose proof (last_In (repeat p (S (S n))) p ltac:(discriminate)) as Hl.
      apply repeat_spec in Hh, Hl.
      transitivity p; [exact Hl | symmetry; exact Hh].
  - intros e He.
    rewrite (mapM_repeat_Raise (fun '(v1, v2) => ab v1 v2) _ e) by assumption.
    reflexivity.
Qed.

Lemma stationary_path_witness :
  compute_advanced (fun _ _ => Raise (ValueError "zero vector"))
    (PyDataFrame (mkDataFrame ["x"; "y"]%string [(1, 1); (1, 1); (1, 1)])) =
  Raise (ValueError "zero vector").
Proof.
  apply (stationary_path (fun _ _ => Raise (ValueError "zero vector"))
           (mkDataFrame ["x"; "y"]%string [(1, 1); (1, 1); (1, 1)]) (1, 1)).
  - split; [reflexivity | unfold len; simpl; lia].
  - simpl; intros q [<- | [<- | [<- | []]]]; reflexivity.
  - reflexivity.
  - reflexivity.
Defined.
